(** * Scoped initialization and cleanup: [openvpn/init/scoped_acq.hpp]

    A shallow embedding of [ScopedAcqStack] and of the templates that build
    it ([sas_size], [sas_element], [stk_builder], [rev_elts]), followed by
    the ordering, failure and termination properties of the construction
    and destruction of one stack.

    The embedding is staged the way C++ is.  Template instantiation is a
    function of the element list that either yields the constructor to run
    or reports that the program is ill-formed; nothing runs in the second
    case.  The constructor and the destructor are then state transformers
    on the pair of the [std::stack] of owned pointers and a chronological
    list of the constructor and destructor calls made so far, which plays
    the role of the message queue of [test_scoped_acq.cpp]. *)

From Stdlib Require Import String List Arith Lia Bool Permutation.
From Equations Require Import Equations.
From Equations.Prop Require Import Logic.
Import ListNotations.

Set Implicit Arguments.

(** ** Guard classes and the observable events *)

(** A class derived from [struct ScopedAcq].  The header sees nothing of it
    but its default constructor and its virtual destructor; a constructor
    either completes or leaves by an exception.  Destructors do not throw. *)
Record ScopedAcq : Type := Guard {
  class_name : string;
  ctor_throws : bool
}.

(** [std::unique_ptr<ScopedAcq>]: sole owner of one object.  [h_index] is
    the template index [I] of the [stk_builder<T, I, ...>] whose constructor
    allocated the object; it stands for the identity of the object. *)
Record handle : Type := Handle {
  h_index : nat;
  h_kind : ScopedAcq
}.

Inductive event : Type :=
| Ctor (I : nat) (K : ScopedAcq)       (* [new K] ran K's constructor to completion *)
| CtorThrow (I : nat) (K : ScopedAcq)  (* K's constructor was entered and threw *)
| Dtor (I : nat) (K : ScopedAcq)       (* the object made at index I was deleted *)
| Msg (s : string).                    (* code of the enclosing scope *)

Definition ctor_event (h : handle) : event := Ctor (h_index h) (h_kind h).
Definition dtor_event (h : handle) : event := Dtor (h_index h) (h_kind h).

(** [using sas_stack = std::stack<std::unique_ptr<ScopedAcq>>].  The head of
    the list is the top of the stack (the back of the underlying deque). *)
Definition sas_stack : Type := list handle.

Definition empty (s : sas_stack) : bool :=
  match s with [] => true | _ :: _ => false end.

Definition push (h : handle) (s : sas_stack) : sas_stack := h :: s.

(** The run-time state: the stack and the log of calls. *)
Definition state : Type := (sas_stack * list event)%type.

(** [stack_.pop()]: removes the top element; destroying the [unique_ptr]
    deletes the object, whose virtual destructor runs.  On an empty stack
    the call is undefined in C++; the model leaves the state as it is, and
    the only caller tests [empty] first. *)
Definition pop (st : state) : state :=
  match fst st with
  | [] => st
  | h :: rest => (rest, snd st ++ [dtor_event h])
  end.

(** ** The element destruction order of the standard container

    When a [sas_stack] that still holds elements is destroyed as a whole
    (the destructor of [sas_stk], reached only by stack unwinding), the
    elements are destroyed by [~deque()].  The language fixes that every
    element is destroyed once, not in which order: an implementation may
    walk the elements from the front or pop them from the back, and
    libstdc++ destroys the full nodes in the middle of the deque first,
    then the first node, then the last one.  The order is therefore an
    interface of the model. *)
Class deque_dtor : Type := {
  destroy_order : sas_stack -> list handle;
  destroy_order_perm : forall s, Permutation (destroy_order s) s
}.

(** Front (bottom of the stack, first pushed) to back.  libstdc++ follows
    this order as long as the deque has no full node in the middle, that
    is while it holds fewer than 128 pointers of 8 bytes; from 128 on it
    starts with element 64. *)
#[refine] Instance deque_front_to_back : deque_dtor :=
  {| destroy_order := fun s => List.rev s |}.
Proof. intros s. apply Permutation_sym, Permutation_rev. Defined.

(** Back (top of the stack) to front. *)
#[refine] Instance deque_back_to_front : deque_dtor :=
  {| destroy_order := fun s => s |}.
Proof. intros s. apply Permutation_refl. Defined.

(** ** Where an exception of a guard constructor goes

    The header contains no [try] block.  An exception thrown by the
    constructor of a guard leaves the constructor of [ScopedAcqStack], and
    it is caught only if a caller has a handler for it; the stack is then
    unwound up to that handler.  If no caller has one, [std::terminate] is
    called, and whether the stack is unwound before that is left to the
    implementation (g++ does not unwind).  Which of the three happens
    depends on the program around the scope and on the implementation, so
    it is an interface of the model as well. *)
Inductive handler_search : Type :=
| handler_found            (* a caller catches; the stack is unwound up to it *)
| terminate_unwound        (* no handler; unwound, then [std::terminate] *)
| terminate_not_unwound.   (* no handler; [std::terminate] at once *)

Class caller : Type := { on_throw : handler_search }.

Definition caught_by_caller : caller := {| on_throw := handler_found |}.
Definition uncaught_unwound : caller := {| on_throw := terminate_unwound |}.
Definition uncaught_not_unwound : caller := {| on_throw := terminate_not_unwound |}.

(** ** Template instantiation *)

Inductive build_error : Type :=
| incomplete_stk_builder     (* [stk_builder<T>]: the primary template is only declared *)
| sas_index_out_of_range.    (* the [static_assert] of [sas_element<I, ScopedAcqStack<>>] *)

Inductive built (A : Type) : Type :=
| Built (a : A)
| Ill_formed (e : build_error).
Arguments Ill_formed {A} e.

Definition bind_built {A B : Type} (x : built A) (f : A -> built B) : built B :=
  match x with
  | Built a => f a
  | Ill_formed e => Ill_formed e
  end.

Notation "x <- c ;; k" := (bind_built c (fun x => k))
  (at level 61, c at next level, right associativity).

(** [sas_size<ScopedAcqStack<Elements...>>::value] is [sizeof...(Elements)]. *)
Definition sas_size (T : list ScopedAcq) : nat := length T.

(** [sas_element<I, T>::type].  The empty list is the error case for every
    [I]; a non-empty list yields its head at [0] and recurses on the tail
    with [I - 1] otherwise. *)
Fixpoint sas_element (I : nat) (T : list ScopedAcq) : built ScopedAcq :=
  match T with
  | [] => Ill_formed sas_index_out_of_range
  | Head :: Tail =>
      match I with
      | 0 => Built Head
      | S I' => sas_element I' Tail
      end
  end.

(** An instantiated [stk_builder<T, Is...>], with the element type that each
    constructor body allocates already looked up. *)
Inductive stk_builder_class : Type :=
| stk_builder_base (I : nat) (K : ScopedAcq)
    (* [stk_builder<T, I> : virtual sas_stk] *)
| stk_builder_rec (I : nat) (K : ScopedAcq) (base : stk_builder_class).
    (* [stk_builder<T, I, Is...> : public stk_builder<T, Is...>, virtual sas_stk] *)

Fixpoint stk_builder (T : list ScopedAcq) (Is : list nat) : built stk_builder_class :=
  match Is with
  | [] => Ill_formed incomplete_stk_builder
  | i :: Is' =>
      match Is' with
      | [] => K <- sas_element i T ;; Built (stk_builder_base i K)
      | _ :: _ =>
          base <- stk_builder T Is' ;;
          K <- sas_element i T ;;
          Built (stk_builder_rec i K base)
      end
  end.

(** [rev_elts<T, I, Is...>] derives from [rev_elts<T, I - 1, Is..., I - 1>],
    and [rev_elts<T, 0, Is...>] from [stk_builder<T, Is...>].  None of them
    declares a constructor, so constructing a [rev_elts] is constructing the
    [stk_builder] at the root of the chain. *)
Fixpoint rev_elts (T : list ScopedAcq) (I : nat) (Is : list nat) : built stk_builder_class :=
  match I with
  | 0 => stk_builder T Is
  | S I' => rev_elts T I' (Is ++ [I'])
  end.

(** ** Construction *)

Inductive completion : Type :=
| Returns (st : state)
| Throws (st : state).

(** The body shared by both [stk_builder] constructors:
    [auto sacq = std::unique_ptr<ScopedAcq>(new K); stack.push(std::move(sacq));].
    If K's constructor throws, [new] frees the storage, no object exists
    and nothing is pushed. *)
Definition new_push (I : nat) (K : ScopedAcq) (st : state) : completion :=
  if ctor_throws K
  then Throws (fst st, snd st ++ [CtorThrow I K])
  else Returns (push (Handle I K) (fst st), snd st ++ [Ctor I K]).

(** A constructor first constructs its base class subobject, then runs its
    own body.  An exception leaving the base constructor leaves this one
    too, before its body. *)
Fixpoint run_stk_builder (c : stk_builder_class) (st : state) : completion :=
  match c with
  | stk_builder_base i K => new_push i K st
  | stk_builder_rec i K base =>
      match run_stk_builder base st with
      | Returns st' => new_push i K st'
      | Throws st' => Throws st'
      end
  end.

(** Destroying a container together with its elements, in the order of the
    implementation. *)
Definition destroy_elements {impl : deque_dtor} (s : sas_stack) (log : list event)
  : list event :=
  log ++ map dtor_event (destroy_order s).

Inductive ctor_result : Type :=
| Constructed (stack_ : sas_stack) (log : list event)
| Failed (log : list event)       (* the exception leaves the constructor *)
| Aborted (log : list event).     (* [std::terminate] was called *)

(** [ScopedAcqStack::ScopedAcqStack()].  [rev_elts<type, N> rev;] first
    initialises the virtual base [sas_stk] (an empty stack), then runs the
    builder chain.  On normal completion [stack_ = std::move(rev.stack)]
    takes the elements over, and the moved-from [rev.stack] owns no object
    when [rev] goes out of scope.  If a constructor throws, nothing in the
    header catches the exception.  Where the stack is unwound, unwinding
    destroys the subobjects of [rev] built so far, among them [sas_stk] and
    the elements of its stack, and with a handler in a caller the exception
    then leaves the constructor.  Where it is not unwound, the objects
    built so far are never destroyed.  [~ScopedAcqStack()] runs for that
    instance in none of these cases. *)
Definition ScopedAcqStack_ctor {impl : deque_dtor} {eh : caller}
    (rev_obj : stk_builder_class) (log : list event) : ctor_result :=
  match run_stk_builder rev_obj ([], log) with
  | Returns st => Constructed (fst st) (snd st)
  | Throws st =>
      match on_throw with
      | handler_found => Failed (destroy_elements (fst st) (snd st))
      | terminate_unwound => Aborted (destroy_elements (fst st) (snd st))
      | terminate_not_unwound => Aborted (snd st)
      end
  end.

(** ** Destruction *)

(** [~ScopedAcqStack()]: [while (!stack_.empty()) stack_.pop();] *)
Equations? dtor_loop (st : state) : state by wf (length (fst st)) lt :=
  dtor_loop st with inspect (empty (fst st)) := {
    | exist _ true _ => st
    | exist _ false Hne => dtor_loop (pop st) }.
Proof.
  destruct st as [[|h rest] log]; simpl in *; [discriminate | lia].
Defined.

Definition ScopedAcqStack_dtor (stack_ : sas_stack) (log : list event) : state :=
  dtor_loop (stack_, log).

(** ** One scope: build, construct, run the body, destroy *)

Inductive outcome : Type :=
| Rejected (e : build_error)       (* the program is ill-formed; nothing runs *)
| Completed (log : list event)     (* constructed, body run, destroyed *)
| Propagated (log : list event)    (* the constructor threw; a caller catches *)
| Terminated (log : list event).   (* the constructor threw; [std::terminate] *)

(** [{ ScopedAcqStack<Elements...> sas; body }], started with the log [log].
    The constructor instantiates [rev_elts<type, sizeof...(Elements)>]. *)
Definition scoped_block {impl : deque_dtor} {eh : caller} (T : list ScopedAcq)
    (body : list string) (log : list event) : outcome :=
  match rev_elts T (sas_size T) [] with
  | Ill_formed e => Rejected e
  | Built rev_obj =>
      match ScopedAcqStack_ctor rev_obj log with
      | Constructed stack_ log1 =>
          Completed (snd (ScopedAcqStack_dtor stack_ (log1 ++ map Msg body)))
      | Failed log1 => Propagated log1
      | Aborted log1 => Terminated log1
      end
  end.

(** ** Guards that act on the state of the process

    The guards of [scoped_raii.hpp] initialise and clean up subsystems that
    live as long as the process, so what a guard constructor does, and
    whether it completes, may depend on what earlier scopes left behind.
    A [process] gives the state that persists and what the constructor and
    the destructor of each class do to it: [acquire K w] is the state the
    constructor of [K] leaves and whether it completed ([false]: it
    threw), [release K w] the state its destructor leaves.  Nothing is
    assumed about either.  The definitions below are those of the previous
    sections with that state threaded through every constructor and
    destructor call; the header itself has no static or global object. *)
Record process : Type := Process {
  world : Type;
  acquire : ScopedAcq -> world -> world * bool;
  release : ScopedAcq -> world -> world
}.

Section InProcess.

Variable P : process.

(** The constructor body of [stk_builder], see [new_push]. *)
Definition new_push_in (I : nat) (K : ScopedAcq) (st : state) (w : world P)
  : completion * world P :=
  let (w', completed) := acquire P K w in
  if completed
  then (Returns (push (Handle I K) (fst st), snd st ++ [Ctor I K]), w')
  else (Throws (fst st, snd st ++ [CtorThrow I K]), w').

(** Base class subobject first, then the body, see [run_stk_builder]. *)
Fixpoint run_stk_builder_in (c : stk_builder_class) (st : state) (w : world P)
  : completion * world P :=
  match c with
  | stk_builder_base i K => new_push_in i K st w
  | stk_builder_rec i K base =>
      match run_stk_builder_in base st w with
      | (Returns st', w') => new_push_in i K st' w'
      | (Throws st', w') => (Throws st', w')
      end
  end.

(** [stack_.pop()], see [pop]. *)
Definition pop_in (sw : state * world P) : state * world P :=
  match fst (fst sw) with
  | [] => sw
  | h :: rest =>
      ((rest, snd (fst sw) ++ [dtor_event h]), release P (h_kind h) (snd sw))
  end.

(** The container destroyed with its elements, see [destroy_elements]. *)
Definition destroy_elements_in {impl : deque_dtor} (s : sas_stack)
    (log : list event) (w : world P) : list event * world P :=
  (log ++ map dtor_event (destroy_order s),
   fold_left (fun w' h => release P (h_kind h) w') (destroy_order s) w).

(** [ScopedAcqStack::ScopedAcqStack()], see [ScopedAcqStack_ctor]. *)
Definition ScopedAcqStack_ctor_in {impl : deque_dtor} {eh : caller}
    (rev_obj : stk_builder_class) (log : list event) (w : world P)
  : ctor_result * world P :=
  match run_stk_builder_in rev_obj ([], log) w with
  | (Returns st, w') => (Constructed (fst st) (snd st), w')
  | (Throws st, w') =>
      match on_throw with
      | handler_found =>
          let (log', w'') := destroy_elements_in (fst st) (snd st) w' in
          (Failed log', w'')
      | terminate_unwound =>
          let (log', w'') := destroy_elements_in (fst st) (snd st) w' in
          (Aborted log', w'')
      | terminate_not_unwound => (Aborted (snd st), w')
      end
  end.

(** [~ScopedAcqStack()]: [while (!stack_.empty()) stack_.pop();] *)
Equations? dtor_loop_in (sw : state * world P) : state * world P
  by wf (length (fst (fst sw))) lt :=
  dtor_loop_in sw with inspect (empty (fst (fst sw))) := {
    | exist _ true _ => sw
    | exist _ false Hne => dtor_loop_in (pop_in sw) }.
Proof.
  destruct s as [[|h rest] log]; simpl in *; [discriminate | lia].
Defined.

(** [{ ScopedAcqStack<Elements...> sas; body }], see [scoped_block].  The
    body pushes its messages and does [user] to the state of the process. *)
Definition scoped_block_in {impl : deque_dtor} {eh : caller}
    (T : list ScopedAcq) (body : list string) (user : world P -> world P)
    (log : list event) (w : world P) : outcome * world P :=
  match rev_elts T (sas_size T) [] with
  | Ill_formed e => (Rejected e, w)
  | Built rev_obj =>
      match ScopedAcqStack_ctor_in rev_obj log w with
      | (Constructed stack_ log1, w1) =>
          let (st, w2) :=
            dtor_loop_in ((stack_, log1 ++ map Msg body), user w1) in
          (Completed (snd st), w2)
      | (Failed log1, w1) => (Propagated log1, w1)
      | (Aborted log1, w1) => (Terminated log1, w1)
      end
  end.

(** Constructor bodies one after the other, see [run_news]. *)
Fixpoint run_news_in (hs : list handle) (st : state) (w : world P)
  : completion * world P :=
  match hs with
  | [] => (Returns st, w)
  | h :: hs' =>
      match new_push_in (h_index h) (h_kind h) st w with
      | (Returns st', w') => run_news_in hs' st' w'
      | (Throws st', w') => (Throws st', w')
      end
  end.

End InProcess.

(** Guards that keep no state: a constructor throws or not as its class
    says.  This is the process of the sections above. *)
Definition stateless : process :=
  {| world := unit;
     acquire := fun K _ => (tt, negb (ctor_throws K));
     release := fun _ _ => tt |}.

(** A process that counts the constructor calls made so far and lets a
    constructor complete only while fewer than [limit] were made. *)
Definition counting (limit : nat) : process :=
  {| world := nat;
     acquire := fun _ n => (S n, n <? limit);
     release := fun _ n => n |}.

(** The objects that the constructors of a chain allocate, in the order in
    which the bodies run. *)
Fixpoint chain_bodies (c : stk_builder_class) : list handle :=
  match c with
  | stk_builder_base i K => [Handle i K]
  | stk_builder_rec i K base => chain_bodies base ++ [Handle i K]
  end.

(** ** The classes and the messages of [test_scoped_acq.cpp] *)

Definition Res1_RAII : ScopedAcq := Guard "Res1_RAII" false.
Definition Res2_RAII : ScopedAcq := Guard "Res2_RAII" false.
Definition Res3_RAII : ScopedAcq := Guard "Res3_RAII" false.

(** A guard whose constructor throws.  No class of the repository does;
    it stands for an initialisation that fails. *)
Definition Failing_RAII : ScopedAcq := Guard "Failing_RAII" true.

(** What a guard of the test pushes on [RAII_checker::Q]. *)
Definition log_msg (e : event) : list string :=
  match e with
  | Ctor _ K => [class_name K ++ " ctor"]
  | Dtor _ K => [class_name K ++ " dtor"]
  | CtorThrow _ _ => []
  | Msg s => [s]
  end%string.

(** [RAII_checker::get_messages]: the queue joined with [" | "]. *)
Fixpoint join (Q : list string) (delim : string) : string :=
  match Q with
  | [] => ""
  | m :: Q' => delim ++ m ++ join Q' " | "
  end%string.

Definition get_messages (log : list event) : string :=
  join (flat_map log_msg log) "".

Definition misc_scoped_acq_result : string :=
  ("Res1_RAII ctor | Res2_RAII ctor | Res3_RAII ctor"
   ++ " | inside the scope | "
   ++ "Res3_RAII dtor | Res2_RAII dtor | Res1_RAII dtor")%string.

(** ** Vocabulary of the statements *)

(** The objects a fully built stack owns, in declared order: position [i]
    of the list [T], counted from [s], with the class declared there. *)
Fixpoint positions_from (s : nat) (T : list ScopedAcq) : list handle :=
  match T with
  | [] => []
  | K :: T' => Handle s K :: positions_from (S s) T'
  end.

Definition positions (T : list ScopedAcq) : list handle := positions_from 0 T.

(** No constructor of the list throws. *)
Definition nothrow (T : list ScopedAcq) : Prop :=
  Forall (fun K => ctor_throws K = false) T.

Definition handles_nothrow (hs : list handle) : Prop :=
  Forall (fun h => ctor_throws (h_kind h) = false) hs.

(** Constructor bodies run one after the other, stopping at the first
    exception: the order in which a builder chain is shown to run. *)
Fixpoint run_news (hs : list handle) (st : state) : completion :=
  match hs with
  | [] => Returns st
  | h :: hs' =>
      match new_push (h_index h) (h_kind h) st with
      | Returns st' => run_news hs' st'
      | Throws st' => Throws st'
      end
  end.

(** [a] occurs in [tr], and [b] occurs later in [tr]. *)
Definition before (a b : event) (tr : list event) : Prop :=
  exists l1 l2 l3, tr = l1 ++ a :: l2 ++ b :: l3.

(** The constructor of the class at position [i] was entered. *)
Definition acquire_at (i : nat) (e : event) : bool :=
  match e with
  | Ctor j _ | CtorThrow j _ => i =? j
  | _ => false
  end.

(** The object built at position [i] was destroyed. *)
Definition release_at (i : nat) (e : event) : bool :=
  match e with
  | Dtor j _ => i =? j
  | _ => false
  end.

Definition count (p : event -> bool) (tr : list event) : nat :=
  length (filter p tr).

(** Two element types are the same class. *)
Definition kind_eqb (K K' : ScopedAcq) : bool :=
  String.eqb (class_name K) (class_name K')
  && Bool.eqb (ctor_throws K) (ctor_throws K').

(** Events of one class, whatever the position. *)
Definition ctor_of (K : ScopedAcq) (e : event) : bool :=
  match e with
  | Ctor _ K' => kind_eqb K K'
  | _ => false
  end.

Definition dtor_of (K : ScopedAcq) (e : event) : bool :=
  match e with
  | Dtor _ K' => kind_eqb K K'
  | _ => false
  end.

(** How many positions of the list declare the class. *)
Definition declared (K : ScopedAcq) (T : list ScopedAcq) : nat :=
  length (filter (kind_eqb K) T).

(** The state after [m] iterations of the loop body of the destructor. *)
Definition pops (m : nat) (st : state) : state := Nat.iter m pop st.

(** ** The message queue of [RAII_checker] *)

(** [std::queue<std::string> RAII_checker::Q], front at the head. *)
Definition msg_queue : Type := list string.

(** [RAII_checker::push_message]: [Q.push(std::move(str))]; [log_msg] of a
    guard forwards to it. *)
Definition push_message (Q : msg_queue) (str : string) : msg_queue := Q ++ [str].

(** The loop of [RAII_checker::get_messages]:
    [while (!Q.empty()) { oss << delim << Q.front(); Q.pop(); delim = " | "; }],
    on the queue, the stream contents and the delimiter.  It returns the
    stream contents and the queue it leaves. *)
Fixpoint get_messages_loop (Q : msg_queue) (oss delim : string)
  : string * msg_queue :=
  match Q with
  | [] => (oss, Q)
  | front :: Q' => get_messages_loop Q' (oss ++ delim ++ front) " | "
  end%string.

(** [RAII_checker::get_messages]: an empty stream and an empty delimiter
    to start with; [oss.str()] is returned. *)
Definition RAII_checker_get_messages (Q : msg_queue) : string * msg_queue :=
  get_messages_loop Q "" "".

(** The messages of the constructor and of the destructor of a test class. *)
Definition ctor_msg (K : ScopedAcq) : string := (class_name K ++ " ctor")%string.
Definition dtor_msg (K : ScopedAcq) : string := (class_name K ++ " dtor")%string.

(** ** Vocabulary of the further statements *)

(** The object is of the class that the list declares at its index. *)
Definition declared_at (T : list ScopedAcq) (h : handle) : Prop :=
  nth_error T (h_index h) = Some (h_kind h).

(** The number of [stk_builder] classes in an inheritance chain. *)
Fixpoint chain_length (c : stk_builder_class) : nat :=
  match c with
  | stk_builder_base _ _ => 1
  | stk_builder_rec _ _ base => S (chain_length base)
  end.

(** A message of the enclosing scope. *)
Definition is_msg (e : event) : bool :=
  match e with
  | Msg _ => true
  | _ => false
  end.

(** The constructor of the class at position [i] ran to completion. *)
Definition ctor_done_at (i : nat) (e : event) : bool :=
  match e with
  | Ctor j _ => i =? j
  | _ => false
  end.

(** * Properties *)

(** ** Index lookup and index generation *)

Lemma sas_element_nth_error (T : list ScopedAcq) (i : nat) :
  sas_element i T =
  match nth_error T i with
  | Some K => Built K
  | None => Ill_formed sas_index_out_of_range
  end.
Proof.
  revert i. induction T as [|Head Tail IH]; intros [|i]; simpl; auto.
Qed.

Lemma positions_from_length (T : list ScopedAcq) (s : nat) :
  length (positions_from s T) = length T.
Proof.
  revert s. induction T as [|K T IH]; intros s; simpl; [reflexivity|].
  now rewrite IH.
Qed.

Lemma positions_from_nth_error (T : list ScopedAcq) (s i : nat) :
  nth_error (positions_from s T) i = option_map (Handle (s + i)) (nth_error T i).
Proof.
  revert s i. induction T as [|K T IH]; intros s [|i]; simpl; auto.
  - now rewrite Nat.add_0_r.
  - rewrite IH. now replace (S s + i) with (s + S i) by lia.
Qed.

Lemma positions_from_app (T1 T2 : list ScopedAcq) (s : nat) :
  positions_from s (T1 ++ T2) =
  positions_from s T1 ++ positions_from (s + length T1) T2.
Proof.
  revert s. induction T1 as [|K T1 IH]; intros s; simpl.
  - now rewrite Nat.add_0_r.
  - rewrite IH. now replace (S s + length T1) with (s + S (length T1)) by lia.
Qed.

Lemma positions_from_kinds (T : list ScopedAcq) (s : nat) :
  map h_kind (positions_from s T) = T.
Proof.
  revert s. induction T as [|K T IH]; intros s; simpl; [reflexivity|].
  now rewrite IH.
Qed.

Lemma positions_from_indices (T : list ScopedAcq) (s : nat) :
  map h_index (positions_from s T) = seq s (length T).
Proof.
  revert s. induction T as [|K T IH]; intros s; simpl; [reflexivity|].
  now rewrite IH.
Qed.

Lemma firstn_snoc {A : Type} (l : list A) (n : nat) (x : A) :
  nth_error l n = Some x -> firstn (S n) l = firstn n l ++ [x].
Proof.
  revert n. induction l as [|a l IH]; intros [|n] H; simpl in *; try discriminate.
  - now inversion H.
  - f_equal. now apply IH.
Qed.

Lemma rev_seq_S (n : nat) : rev (seq 0 (S n)) = n :: rev (seq 0 n).
Proof.
  rewrite seq_S, rev_app_distr. reflexivity.
Qed.

(** The chain of [rev_elts] bases ends in the [stk_builder] whose index
    pack is the pack so far followed by [I - 1, ..., 0]. *)
Lemma rev_elts_indices (T : list ScopedAcq) (I : nat) (Is : list nat) :
  rev_elts T I Is = stk_builder T (Is ++ rev (seq 0 I)).
Proof.
  revert Is. induction I as [|I IH]; intros Is; simpl rev_elts.
  - now rewrite app_nil_r.
  - rewrite IH, rev_seq_S, <- app_assoc. reflexivity.
Qed.

Lemma run_news_app (a b : list handle) (st : state) :
  run_news (a ++ b) st =
  match run_news a st with
  | Returns st' => run_news b st'
  | Throws st' => Throws st'
  end.
Proof.
  revert st. induction a as [|h a IH]; intros st; simpl; [reflexivity|].
  destruct (new_push (h_index h) (h_kind h) st); auto.
Qed.

Lemma run_news_single (h : handle) (st : state) :
  run_news [h] st = new_push (h_index h) (h_kind h) st.
Proof.
  simpl. now destruct (new_push (h_index h) (h_kind h) st).
Qed.

(** Instantiated on the pack [n, ..., 0] with [n] in range, [stk_builder]
    is well-formed and its constructor runs the bodies of positions
    [0, ..., n] in that order. *)
Lemma stk_builder_prefix (T : list ScopedAcq) (n : nat) :
  n < length T ->
  exists c, stk_builder T (rev (seq 0 (S n))) = Built c /\
    forall st, run_stk_builder c st = run_news (firstn (S n) (positions T)) st.
Proof.
  induction n as [|n IH]; intros Hn.
  - destruct T as [|K T]; [simpl in Hn; lia|].
    exists (stk_builder_base 0 K). split; [reflexivity|].
    intros st. simpl firstn. now rewrite run_news_single.
  - destruct IH as [base [Hbase Hrun]]; [lia|].
    destruct (nth_error T (S n)) as [K|] eqn:HK.
    2:{ apply nth_error_None in HK. lia. }
    exists (stk_builder_rec (S n) K base). split.
    + rewrite (rev_seq_S (S n)).
      rewrite rev_seq_S in Hbase |- *.
      change (stk_builder T (S n :: n :: rev (seq 0 n)))
        with (base <- stk_builder T (n :: rev (seq 0 n)) ;;
              K <- sas_element (S n) T ;;
              Built (stk_builder_rec (S n) K base)).
      rewrite Hbase. cbn [bind_built].
      rewrite sas_element_nth_error, HK. reflexivity.
    + intros st.
      rewrite (@firstn_snoc _ (positions T) (S n) (Handle (S n) K)).
      2:{ unfold positions. rewrite positions_from_nth_error, HK. reflexivity. }
      rewrite run_news_app, <- Hrun. simpl run_stk_builder.
      destruct (run_stk_builder base st); [|reflexivity].
      now rewrite run_news_single.
Qed.

(** For a non-empty list, [rev_elts<type, N>] is well-formed and its
    constructor runs the body of every position, first declared first. *)
Lemma rev_elts_builds (T : list ScopedAcq) :
  T <> [] ->
  exists c, rev_elts T (sas_size T) [] = Built c /\
    forall st, run_stk_builder c st = run_news (positions T) st.
Proof.
  intros HT. unfold sas_size.
  destruct (length T) as [|n] eqn:Hlen.
  - destruct T; [congruence | discriminate].
  - destruct (@stk_builder_prefix T n) as [c [Hc Hrun]]; [lia|].
    exists c. split.
    + now rewrite rev_elts_indices.
    + intros st. rewrite Hrun. f_equal.
      apply firstn_all2. unfold positions. rewrite positions_from_length. lia.
Qed.

(** ** Running the constructors *)

Lemma positions_from_nothrow (T : list ScopedAcq) (s : nat) :
  nothrow T -> handles_nothrow (positions_from s T).
Proof.
  intros H. revert s. induction H as [|K T HK HT IH]; intros s; simpl.
  - constructor.
  - constructor; [exact HK | apply IH].
Qed.

Lemma run_news_nothrow (hs : list handle) (s : sas_stack) (log : list event) :
  handles_nothrow hs ->
  run_news hs (s, log) = Returns (rev hs ++ s, log ++ map ctor_event hs).
Proof.
  intros H. revert s log.
  induction H as [|h hs Hh Hhs IH]; intros s log; simpl.
  - now rewrite app_nil_r.
  - unfold new_push. rewrite Hh. simpl fst; simpl snd.
    rewrite IH. unfold push. rewrite <- !app_assoc.
    destruct h; reflexivity.
Qed.

Lemma run_news_throw (h1 h2 : list handle) (h : handle) (s : sas_stack)
    (log : list event) :
  handles_nothrow h1 ->
  ctor_throws (h_kind h) = true ->
  run_news (h1 ++ h :: h2) (s, log) =
  Throws (rev h1 ++ s,
          log ++ map ctor_event h1 ++ [CtorThrow (h_index h) (h_kind h)]).
Proof.
  intros H1 Hh. rewrite run_news_app, run_news_nothrow by assumption.
  simpl. unfold new_push. rewrite Hh. simpl. now rewrite <- app_assoc.
Qed.

(** ** Running the destructor *)

Lemma dtor_loop_nil (log : list event) : dtor_loop ([], log) = ([], log).
Proof. rewrite dtor_loop_equation_1. reflexivity. Qed.

Lemma dtor_loop_cons (h : handle) (s : sas_stack) (log : list event) :
  dtor_loop (h :: s, log) = dtor_loop (s, log ++ [dtor_event h]).
Proof. rewrite dtor_loop_equation_1. reflexivity. Qed.

(** The loop empties the stack and destroys the objects top first. *)
Lemma dtor_loop_spec (s : sas_stack) (log : list event) :
  dtor_loop (s, log) = ([], log ++ map dtor_event s).
Proof.
  revert log. induction s as [|h s IH]; intros log.
  - rewrite dtor_loop_nil. simpl. now rewrite app_nil_r.
  - rewrite dtor_loop_cons, IH. simpl. now rewrite <- app_assoc.
Qed.

Lemma pops_spec (s1 s2 : sas_stack) (log : list event) :
  pops (length s1) (s1 ++ s2, log) = (s2, log ++ map dtor_event s1).
Proof.
  revert log. induction s1 as [|h s1 IH]; intros log.
  - simpl. now rewrite app_nil_r.
  - unfold pops in *. simpl length. rewrite Nat.iter_succ_r.
    unfold pop at 2. simpl. rewrite IH. now rewrite <- app_assoc.
Qed.

(** ** One scope, in closed form *)

Lemma scoped_block_nothrow {impl : deque_dtor} {eh : caller} (T : list ScopedAcq)
    (body : list string) (log : list event) :
  T <> [] -> nothrow T ->
  scoped_block T body log =
  Completed (log ++ map ctor_event (positions T) ++ map Msg body
                 ++ map dtor_event (rev (positions T))).
Proof.
  intros HT Hok. unfold scoped_block.
  destruct (rev_elts_builds HT) as [c [Hc Hrun]]. rewrite Hc.
  unfold ScopedAcqStack_ctor. rewrite Hrun.
  rewrite run_news_nothrow by now apply positions_from_nothrow.
  cbn [fst snd]. unfold ScopedAcqStack_dtor. rewrite dtor_loop_spec.
  cbn [snd]. rewrite app_nil_r, <- !app_assoc. reflexivity.
Qed.

Lemma scoped_block_throw {impl : deque_dtor} {eh : caller}
    (T1 T2 : list ScopedAcq) (K : ScopedAcq) (body : list string)
    (log : list event) :
  nothrow T1 -> ctor_throws K = true ->
  scoped_block (T1 ++ K :: T2) body log =
  match on_throw with
  | handler_found =>
      Propagated (log ++ map ctor_event (positions T1)
                      ++ CtorThrow (length T1) K
                      :: map dtor_event (destroy_order (rev (positions T1))))
  | terminate_unwound =>
      Terminated (log ++ map ctor_event (positions T1)
                      ++ CtorThrow (length T1) K
                      :: map dtor_event (destroy_order (rev (positions T1))))
  | terminate_not_unwound =>
      Terminated (log ++ map ctor_event (positions T1)
                      ++ [CtorThrow (length T1) K])
  end.
Proof.
  intros H1 HK. unfold scoped_block.
  destruct (@rev_elts_builds (T1 ++ K :: T2)) as [c [Hc Hrun]].
  { now destruct T1. }
  rewrite Hc. unfold ScopedAcqStack_ctor. rewrite Hrun.
  unfold positions. rewrite positions_from_app. simpl positions_from.
  rewrite run_news_throw; [| now apply positions_from_nothrow | exact HK].
  cbn [fst snd h_index h_kind]. unfold destroy_elements.
  rewrite app_nil_r.
  destruct on_throw; rewrite <- ?app_assoc; reflexivity.
Qed.

Lemma scoped_block_empty {impl : deque_dtor} {eh : caller} (body : list string) (log : list event) :
  scoped_block [] body log = Rejected incomplete_stk_builder.
Proof. reflexivity. Qed.

(** The constructor alone, when nothing throws. *)
Lemma ctor_nothrow {impl : deque_dtor} {eh : caller} (T : list ScopedAcq) :
  T <> [] -> nothrow T ->
  exists c, rev_elts T (sas_size T) [] = Built c /\
    forall log, ScopedAcqStack_ctor c log =
                Constructed (rev (positions T)) (log ++ map ctor_event (positions T)).
Proof.
  intros HT Hok. destruct (rev_elts_builds HT) as [c [Hc Hrun]].
  exists c. split; [exact Hc|]. intros log.
  unfold ScopedAcqStack_ctor. rewrite Hrun.
  rewrite run_news_nothrow by now apply positions_from_nothrow.
  cbn [fst snd]. now rewrite app_nil_r.
Qed.

(** Every list is free of throwing constructors or has a first one. *)
Lemma first_throw (T : list ScopedAcq) :
  nothrow T \/
  exists T1 K T2, T = T1 ++ K :: T2 /\ nothrow T1 /\ ctor_throws K = true.
Proof.
  induction T as [|K T [IH | [T1 [K' [T2 [HT [H1 HK]]]]]]].
  - left. constructor.
  - destruct (ctor_throws K) eqn:HK.
    + right. exists [], K, T. repeat split; [constructor | exact HK].
    + left. constructor; assumption.
  - destruct (ctor_throws K) eqn:HK0.
    + right. exists [], K, T. repeat split; [constructor | exact HK0].
    + right. exists (K :: T1), K', T2. subst T. repeat split.
      * constructor; assumption.
      * exact HK.
Qed.

(** ** Order and multiplicity in a trace *)

Lemma split_two {A : Type} (l : list A) (i j : nat) (a b : A) :
  i < j -> nth_error l i = Some a -> nth_error l j = Some b ->
  exists l1 l2 l3, l = l1 ++ a :: l2 ++ b :: l3.
Proof.
  revert i j. induction l as [|x l IH]; intros i j Hij Ha Hb.
  - destruct i; discriminate.
  - destruct j as [|j]; [lia|]. destruct i as [|i]; simpl in *.
    + inversion Ha; subst x.
      destruct (nth_error_split l j Hb) as [l2 [l3 [Hl _]]].
      exists [], l2, l3. simpl. now rewrite Hl.
    + destruct (IH i j) as [l1 [l2 [l3 Hl]]]; [lia | assumption | assumption |].
      exists (x :: l1), l2, l3. simpl. now rewrite Hl.
Qed.

Lemma before_map {A : Type} (f : A -> event) (l l1 l2 l3 : list A) (a b : A) :
  l = l1 ++ a :: l2 ++ b :: l3 -> before (f a) (f b) (map f l).
Proof.
  intros ->. exists (map f l1), (map f l2), (map f l3).
  now rewrite map_app, (map_cons f a), map_app, (map_cons f b).
Qed.

Lemma before_map_rev {A : Type} (f : A -> event) (l l1 l2 l3 : list A) (a b : A) :
  l = l1 ++ a :: l2 ++ b :: l3 -> before (f b) (f a) (map f (rev l)).
Proof.
  intros ->. apply before_map with (l1 := rev l3) (l2 := rev l2) (l3 := rev l1).
  rewrite rev_app_distr. simpl. rewrite rev_app_distr. simpl.
  now rewrite <- !app_assoc.
Qed.

Lemma before_frame (a b : event) (p tr q : list event) :
  before a b tr -> before a b (p ++ tr ++ q).
Proof.
  intros [l1 [l2 [l3 ->]]]. exists (p ++ l1), l2, (l3 ++ q).
  rewrite <- !app_assoc. simpl. rewrite <- app_assoc. reflexivity.
Qed.

Lemma count_app (p : event -> bool) (a b : list event) :
  count p (a ++ b) = count p a + count p b.
Proof. unfold count. now rewrite filter_app, length_app. Qed.

Lemma count_map {A : Type} (p : event -> bool) (f : A -> event) (l : list A) :
  count p (map f l) = length (filter (fun x => p (f x)) l).
Proof.
  unfold count. induction l as [|x l IH]; simpl; [reflexivity|].
  destruct (p (f x)); simpl; now rewrite IH.
Qed.

Lemma count_none {A : Type} (p : event -> bool) (f : A -> event) (l : list A) :
  (forall x, p (f x) = false) -> count p (map f l) = 0.
Proof.
  intros H. rewrite count_map. induction l as [|x l IH]; simpl; [reflexivity|].
  now rewrite H.
Qed.

Lemma filter_length_perm {A : Type} (p : A -> bool) (l l' : list A) :
  Permutation l l' -> length (filter p l) = length (filter p l').
Proof.
  induction 1 as [|x l l' _ IH|x y l|l l' l'' _ IH1 _ IH2]; simpl.
  - reflexivity.
  - destruct (p x); simpl; now rewrite IH.
  - destruct (p x), (p y); reflexivity.
  - now rewrite IH1.
Qed.

(** A position occurs once among the objects of a list if it is in range,
    and not at all otherwise. *)
Lemma positions_from_count_below (T : list ScopedAcq) (s i : nat) :
  i < s -> length (filter (fun h => i =? h_index h) (positions_from s T)) = 0.
Proof.
  revert s. induction T as [|K T IH]; intros s H; cbn [positions_from filter h_index].
  - reflexivity.
  - replace (i =? s) with false by (symmetry; apply Nat.eqb_neq; lia).
    apply IH. lia.
Qed.

Lemma positions_from_count_above (T : list ScopedAcq) (s i : nat) :
  s + length T <= i ->
  length (filter (fun h => i =? h_index h) (positions_from s T)) = 0.
Proof.
  revert s. induction T as [|K T IH]; intros s H;
    cbn [positions_from filter h_index length] in *.
  - reflexivity.
  - replace (i =? s) with false by (symmetry; apply Nat.eqb_neq; lia).
    apply IH. lia.
Qed.

Lemma positions_from_count_within (T : list ScopedAcq) (s i : nat) :
  s <= i -> i < s + length T ->
  length (filter (fun h => i =? h_index h) (positions_from s T)) = 1.
Proof.
  revert s. induction T as [|K T IH]; intros s H1 H2;
    cbn [positions_from filter h_index length] in *.
  - lia.
  - destruct (i =? s) eqn:E.
    + apply Nat.eqb_eq in E. cbn [length]. f_equal.
      apply positions_from_count_below. lia.
    + apply Nat.eqb_neq in E. apply IH; lia.
Qed.

Lemma positions_count_in (T : list ScopedAcq) (i : nat) :
  i < length T ->
  length (filter (fun h => i =? h_index h) (positions T)) = 1.
Proof.
  intros H. apply positions_from_count_within; lia.
Qed.

Lemma positions_count_out (T : list ScopedAcq) (i : nat) :
  length T <= i ->
  length (filter (fun h => i =? h_index h) (positions T)) = 0.
Proof.
  intros H. apply positions_from_count_above. lia.
Qed.

Lemma positions_nth (T : list ScopedAcq) (i : nat) (K : ScopedAcq) :
  nth_error T i = Some K -> nth_error (positions T) i = Some (Handle i K).
Proof.
  intros H. unfold positions. now rewrite positions_from_nth_error, H.
Qed.

Lemma count_acquire_ctor (i : nat) (hs : list handle) :
  count (acquire_at i) (map ctor_event hs) =
  length (filter (fun h => i =? h_index h) hs).
Proof. apply (count_map (acquire_at i) ctor_event). Qed.

Lemma count_release_dtor (i : nat) (hs : list handle) :
  count (release_at i) (map dtor_event hs) =
  length (filter (fun h => i =? h_index h) hs).
Proof. apply (count_map (release_at i) dtor_event). Qed.

Lemma count_acquire_dtor (i : nat) (hs : list handle) :
  count (acquire_at i) (map dtor_event hs) = 0.
Proof. now apply count_none. Qed.

Lemma count_release_ctor (i : nat) (hs : list handle) :
  count (release_at i) (map ctor_event hs) = 0.
Proof. now apply count_none. Qed.

Lemma count_acquire_msg (i : nat) (body : list string) :
  count (acquire_at i) (map Msg body) = 0.
Proof. now apply count_none. Qed.

Lemma count_release_msg (i : nat) (body : list string) :
  count (release_at i) (map Msg body) = 0.
Proof. now apply count_none. Qed.

Lemma nth_error_in_range {A : Type} (l : list A) (i : nat) (a : A) :
  nth_error l i = Some a -> i < length l.
Proof. intros H. apply nth_error_Some. congruence. Qed.

(** ** The unit test *)

(** [TEST(misc, scoped_acq)]: the messages of one scope over the three test
    classes are the expected string. *)
Example test_misc_scoped_acq :
  forall (impl : deque_dtor) (eh : caller),
  exists log,
    scoped_block [Res1_RAII; Res2_RAII; Res3_RAII] ["inside the scope"%string] []
      = Completed log /\
    get_messages log = misc_scoped_acq_result.
Proof.
  intros impl eh. eexists. split; reflexivity.
Qed.

(** ** The ordered guard list *)

Lemma stk_builder_out_of_range (T : list ScopedAcq) (Is : list nat) (i : nat) :
  In i Is -> sas_size T <= i -> exists e, stk_builder T Is = Ill_formed e.
Proof.
  unfold sas_size. intros Hin Hi.
  assert (Hel : sas_element i T = Ill_formed sas_index_out_of_range).
  { rewrite sas_element_nth_error.
    now replace (nth_error T i) with (@None ScopedAcq)
      by (symmetry; apply nth_error_None; exact Hi). }
  induction Is as [|k Is IH]; [contradiction|].
  destruct Is as [|k' Is'].
  - destruct Hin as [-> | []]. simpl. rewrite Hel. now eexists.
  - change (stk_builder T (k :: k' :: Is'))
      with (base <- stk_builder T (k' :: Is') ;;
            K <- sas_element k T ;;
            Built (stk_builder_rec k K base)).
    destruct Hin as [-> | Hin].
    + destruct (stk_builder T (k' :: Is')); cbn [bind_built].
      * rewrite Hel. now eexists.
      * now eexists.
    + destruct (IH Hin) as [e He]. rewrite He. now eexists.
Qed.

(** C7.  [sas_size] of a stack type is the number [N] of its element types.
    For every index [i < N], [sas_element] is well-formed and names the
    class declared at position [i].  For every index [i >= N] the lookup is
    ill-formed (the [static_assert] of the empty-list case fires), and so
    is every [stk_builder] whose index pack contains [i]: the program is
    rejected when it is built and no constructor exists that could run. *)
Theorem sas_element_lookup (T : list ScopedAcq) (i : nat) :
  sas_size T = length T /\
  (i < sas_size T ->
     exists K, nth_error T i = Some K /\ sas_element i T = Built K) /\
  (sas_size T <= i ->
     sas_element i T = Ill_formed sas_index_out_of_range /\
     forall Is, In i Is -> exists e, stk_builder T Is = Ill_formed e).
Proof.
  split; [reflexivity|]. unfold sas_size. split; intros Hi.
  - destruct (nth_error T i) as [K|] eqn:HK.
    + exists K. split; [reflexivity|]. now rewrite sas_element_nth_error, HK.
    + apply nth_error_None in HK. lia.
  - split.
    + rewrite sas_element_nth_error.
      now replace (nth_error T i) with (@None ScopedAcq)
        by (symmetry; apply nth_error_None; exact Hi).
    + intros Is Hin. now apply stk_builder_out_of_range with (i := i).
Qed.

Lemma sas_element_lookup_witness :
  sas_size [Res1_RAII; Res2_RAII; Res3_RAII] = 3 /\
  (exists K, nth_error [Res1_RAII; Res2_RAII; Res3_RAII] 1 = Some K /\
             sas_element 1 [Res1_RAII; Res2_RAII; Res3_RAII] = Built K) /\
  sas_element 3 [Res1_RAII; Res2_RAII; Res3_RAII]
    = Ill_formed sas_index_out_of_range.
Proof.
  split; [reflexivity|]. split.
  - apply (sas_element_lookup [Res1_RAII; Res2_RAII; Res3_RAII] 1). simpl. lia.
  - apply (sas_element_lookup [Res1_RAII; Res2_RAII; Res3_RAII] 3). simpl. lia.
Defined.

(** ** Construction order *)

(** C1.  For a non-empty list whose constructors complete, [rev_elts]
    hands [stk_builder] the index pack [N-1, ..., 0], the constructor of
    the stack completes with the objects of positions [0 .. N-1] on the
    stack, position [0] at the bottom, and for all positions [i < j] the
    constructor of position [i] runs before the constructor of position
    [j], each of them exactly once. *)
Theorem acquire_in_declared_order {impl : deque_dtor} {eh : caller} (T : list ScopedAcq)
    (log : list event) :
  T <> [] -> nothrow T ->
  rev_elts T (sas_size T) [] = stk_builder T (rev (seq 0 (sas_size T))) /\
  exists c tr,
    rev_elts T (sas_size T) [] = Built c /\
    ScopedAcqStack_ctor c log = Constructed (rev (positions T)) (log ++ tr) /\
    forall i j Ki Kj,
      i < j -> nth_error T i = Some Ki -> nth_error T j = Some Kj ->
      before (Ctor i Ki) (Ctor j Kj) tr /\
      count (acquire_at i) tr = 1 /\ count (acquire_at j) tr = 1.
Proof.
  intros HT Hok. split; [apply rev_elts_indices|].
  destruct (ctor_nothrow HT Hok) as [c [Hc Hrun]].
  exists c, (map ctor_event (positions T)). split; [exact Hc|].
  split; [apply Hrun|].
  intros i j Ki Kj Hij Hi Hj. split; [|split].
  - destruct (@split_two _ (positions T) i j _ _ Hij
                (@positions_nth T i Ki Hi) (@positions_nth T j Kj Hj))
      as [l1 [l2 [l3 Hl]]].
    exact (@before_map _ ctor_event _ _ _ _ _ _ Hl).
  - rewrite count_acquire_ctor. apply positions_count_in.
    exact (@nth_error_in_range _ T i Ki Hi).
  - rewrite count_acquire_ctor. apply positions_count_in.
    exact (@nth_error_in_range _ T j Kj Hj).
Qed.

Lemma acquire_in_declared_order_witness :
  [Res1_RAII; Res2_RAII; Res3_RAII] <> [] /\
  nothrow [Res1_RAII; Res2_RAII; Res3_RAII] /\
  exists c tr,
    rev_elts [Res1_RAII; Res2_RAII; Res3_RAII] 3 [] = Built c /\
    @ScopedAcqStack_ctor deque_front_to_back caught_by_caller c []
      = Constructed (rev (positions [Res1_RAII; Res2_RAII; Res3_RAII])) tr /\
    before (Ctor 0 Res1_RAII) (Ctor 2 Res3_RAII) tr.
Proof.
  assert (H1 : [Res1_RAII; Res2_RAII; Res3_RAII] <> []) by discriminate.
  assert (H2 : nothrow [Res1_RAII; Res2_RAII; Res3_RAII])
    by (repeat constructor).
  split; [exact H1|]. split; [exact H2|].
  destruct (@acquire_in_declared_order deque_front_to_back caught_by_caller _ [] H1 H2)
    as [_ [c [tr [Hc [Hrun Hord]]]]].
  exists c, tr. split; [exact Hc|]. split; [exact Hrun|].
  apply (Hord 0 2 Res1_RAII Res3_RAII); [lia | reflexivity | reflexivity].
Defined.

(** ** Destruction order *)

(** C2.  Once a non-empty stack is fully constructed, its destructor,
    started in any state of the log, empties the stack and destroys the
    objects top first: for all positions [i < j] the destructor of
    position [j] runs before the destructor of position [i], each of them
    exactly once. *)
Theorem release_in_reverse_order {impl : deque_dtor} {eh : caller} (T : list ScopedAcq)
    (log : list event) :
  T <> [] -> nothrow T ->
  exists c stack_ log1,
    rev_elts T (sas_size T) [] = Built c /\
    ScopedAcqStack_ctor c log = Constructed stack_ log1 /\
    forall log2, exists tr,
      ScopedAcqStack_dtor stack_ log2 = ([], log2 ++ tr) /\
      forall i j Ki Kj,
        i < j -> nth_error T i = Some Ki -> nth_error T j = Some Kj ->
        before (Dtor j Kj) (Dtor i Ki) tr /\
        count (release_at i) tr = 1 /\ count (release_at j) tr = 1.
Proof.
  intros HT Hok. destruct (ctor_nothrow HT Hok) as [c [Hc Hrun]].
  exists c, (rev (positions T)), (log ++ map ctor_event (positions T)).
  split; [exact Hc|]. split; [apply Hrun|].
  intros log2. exists (map dtor_event (rev (positions T))).
  split; [apply dtor_loop_spec|].
  intros i j Ki Kj Hij Hi Hj. split; [|split].
  - destruct (@split_two _ (positions T) i j _ _ Hij
                (@positions_nth T i Ki Hi) (@positions_nth T j Kj Hj))
      as [l1 [l2 [l3 Hl]]].
    exact (@before_map_rev _ dtor_event _ _ _ _ _ _ Hl).
  - rewrite count_release_dtor.
    rewrite (filter_length_perm _ (Permutation_sym (Permutation_rev (positions T)))).
    apply positions_count_in. exact (@nth_error_in_range _ T i Ki Hi).
  - rewrite count_release_dtor.
    rewrite (filter_length_perm _ (Permutation_sym (Permutation_rev (positions T)))).
    apply positions_count_in. exact (@nth_error_in_range _ T j Kj Hj).
Qed.

Lemma release_in_reverse_order_witness :
  [Res1_RAII; Res2_RAII; Res3_RAII] <> [] /\
  nothrow [Res1_RAII; Res2_RAII; Res3_RAII] /\
  exists c stack_ log1,
    rev_elts [Res1_RAII; Res2_RAII; Res3_RAII] 3 [] = Built c /\
    @ScopedAcqStack_ctor deque_front_to_back caught_by_caller c [] = Constructed stack_ log1 /\
    exists tr,
      ScopedAcqStack_dtor stack_ (log1 ++ [Msg "inside the scope"])
        = ([], (log1 ++ [Msg "inside the scope"]) ++ tr) /\
      before (Dtor 2 Res3_RAII) (Dtor 0 Res1_RAII) tr.
Proof.
  assert (H1 : [Res1_RAII; Res2_RAII; Res3_RAII] <> []) by discriminate.
  assert (H2 : nothrow [Res1_RAII; Res2_RAII; Res3_RAII])
    by (repeat constructor).
  split; [exact H1|]. split; [exact H2|].
  destruct (@release_in_reverse_order deque_front_to_back caught_by_caller _ [] H1 H2)
    as [c [stack_ [log1 [Hc [Hrun Hd]]]]].
  exists c, stack_, log1. split; [exact Hc|]. split; [exact Hrun|].
  destruct (Hd (log1 ++ [Msg "inside the scope"])) as [tr [Htr Hord]].
  exists tr. split; [exact Htr|].
  apply (Hord 0 2 Res1_RAII Res3_RAII); [lia | reflexivity | reflexivity].
Defined.

(** ** Multiplicity *)

Lemma scope_trace_counts (T : list ScopedAcq) (body : list string) (i : nat) :
  count (acquire_at i)
    (map ctor_event (positions T) ++ map Msg body
       ++ map dtor_event (rev (positions T)))
    = length (filter (fun h => i =? h_index h) (positions T)) /\
  count (release_at i)
    (map ctor_event (positions T) ++ map Msg body
       ++ map dtor_event (rev (positions T)))
    = length (filter (fun h => i =? h_index h) (positions T)).
Proof.
  rewrite !count_app.
  rewrite count_acquire_ctor, count_acquire_msg, count_acquire_dtor.
  rewrite count_release_ctor, count_release_msg, count_release_dtor.
  rewrite (filter_length_perm _ (Permutation_sym (Permutation_rev (positions T)))).
  split; lia.
Qed.

(** C5.  For every list whose constructors complete, a scope over it
    either does not exist (the empty list, which is rejected when the
    program is built) or completes; in its trace the constructor of every
    position [i < N] is entered exactly once and the object of every
    position is destroyed exactly once, and nothing is constructed or
    destroyed at any other index. *)
Theorem each_guard_once {impl : deque_dtor} {eh : caller} (T : list ScopedAcq)
    (body : list string) (log : list event) :
  nothrow T ->
  match scoped_block T body log with
  | Completed log' =>
      exists tr, log' = log ++ tr /\
        (forall i, i < sas_size T ->
           count (acquire_at i) tr = 1 /\ count (release_at i) tr = 1) /\
        (forall i, sas_size T <= i ->
           count (acquire_at i) tr = 0 /\ count (release_at i) tr = 0)
  | Rejected _ => T = []
  | Propagated _ => False
  | Terminated _ => False
  end.
Proof.
  intros Hok. destruct T as [|K T]; [reflexivity|].
  rewrite scoped_block_nothrow by (assumption || discriminate).
  eexists. split; [reflexivity|]. unfold sas_size.
  split; intros i Hi; destruct (scope_trace_counts (K :: T) body i) as [Ha Hr];
    rewrite Ha, Hr.
  - split; now apply positions_count_in.
  - split; now apply positions_count_out.
Qed.

Lemma each_guard_once_witness :
  nothrow [Res1_RAII; Res2_RAII; Res3_RAII] /\
  match @scoped_block deque_front_to_back caught_by_caller [Res1_RAII; Res2_RAII; Res3_RAII]
          ["inside the scope"%string] [] with
  | Completed log' =>
      exists tr, log' = [] ++ tr /\
        (forall i, i < sas_size [Res1_RAII; Res2_RAII; Res3_RAII] ->
           count (acquire_at i) tr = 1 /\ count (release_at i) tr = 1) /\
        (forall i, sas_size [Res1_RAII; Res2_RAII; Res3_RAII] <= i ->
           count (acquire_at i) tr = 0 /\ count (release_at i) tr = 0)
  | Rejected _ => [Res1_RAII; Res2_RAII; Res3_RAII] = []
  | Propagated _ => False
  | Terminated _ => False
  end.
Proof.
  assert (H : nothrow [Res1_RAII; Res2_RAII; Res3_RAII]) by (repeat constructor).
  split; [exact H|].
  exact (@each_guard_once deque_front_to_back caught_by_caller _ ["inside the scope"%string] [] H).
Defined.

(** ** Repeated scopes *)

Lemma run_news_in_app (P : process) (a b : list handle) (st : state)
    (w : world P) :
  run_news_in P (a ++ b) st w =
  match run_news_in P a st w with
  | (Returns st', w') => run_news_in P b st' w'
  | (Throws st', w') => (Throws st', w')
  end.
Proof.
  revert st w. induction a as [|h a IH]; intros st w; simpl; [reflexivity|].
  destruct (new_push_in P (h_index h) (h_kind h) st w) as [[st'|st'] w']; auto.
Qed.

Lemma run_news_in_single (P : process) (h : handle) (st : state) (w : world P) :
  run_news_in P [h] st w = new_push_in P (h_index h) (h_kind h) st w.
Proof.
  simpl. now destruct (new_push_in P (h_index h) (h_kind h) st w) as [[st'|st'] w'].
Qed.

(** A chain runs the bodies of [chain_bodies], in that order. *)
Lemma run_stk_builder_in_bodies (P : process) (c : stk_builder_class)
    (st : state) (w : world P) :
  run_stk_builder_in P c st w = run_news_in P (chain_bodies c) st w.
Proof.
  induction c as [i K | i K base IH]; cbn [run_stk_builder_in chain_bodies].
  - now rewrite run_news_in_single.
  - rewrite run_news_in_app, <- IH.
    destruct (run_stk_builder_in P base st w) as [[st'|st'] w']; [|reflexivity].
    now rewrite run_news_in_single.
Qed.

Lemma stk_builder_prefix_bodies (T : list ScopedAcq) (n : nat) :
  n < length T ->
  exists c, stk_builder T (rev (seq 0 (S n))) = Built c /\
    chain_bodies c = firstn (S n) (positions T).
Proof.
  induction n as [|n IH]; intros Hn.
  - destruct T as [|K T]; [simpl in Hn; lia|].
    exists (stk_builder_base 0 K). split; reflexivity.
  - destruct IH as [base [Hbase Hb]]; [lia|].
    destruct (nth_error T (S n)) as [K|] eqn:HK.
    2:{ apply nth_error_None in HK. lia. }
    exists (stk_builder_rec (S n) K base). split.
    + rewrite (rev_seq_S (S n)).
      rewrite rev_seq_S in Hbase |- *.
      change (stk_builder T (S n :: n :: rev (seq 0 n)))
        with (base <- stk_builder T (n :: rev (seq 0 n)) ;;
              K <- sas_element (S n) T ;;
              Built (stk_builder_rec (S n) K base)).
      rewrite Hbase. cbn [bind_built].
      rewrite sas_element_nth_error, HK. reflexivity.
    + cbn [chain_bodies]. rewrite Hb.
      rewrite (@firstn_snoc _ (positions T) (S n) (Handle (S n) K)); [reflexivity|].
      unfold positions. rewrite positions_from_nth_error, HK. reflexivity.
Qed.

(** The chain that the constructor of the stack runs has one body per
    position of the list, first declared first. *)
Lemma rev_elts_bodies (T : list ScopedAcq) :
  T <> [] ->
  exists c, rev_elts T (sas_size T) [] = Built c /\ chain_bodies c = positions T.
Proof.
  intros HT. unfold sas_size.
  destruct (length T) as [|n] eqn:Hlen.
  - destruct T; [congruence | discriminate].
  - destruct (@stk_builder_prefix_bodies T n) as [c [Hc Hb]]; [lia|].
    exists c. split; [now rewrite rev_elts_indices|].
    rewrite Hb. apply firstn_all2. unfold positions.
    rewrite positions_from_length. lia.
Qed.

(** Bodies that all complete have pushed their objects and logged their
    constructions, whatever they did to the state of the process. *)
Lemma run_news_in_returns (P : process) (hs : list handle) (st st' : state)
    (w w' : world P) :
  run_news_in P hs st w = (Returns st', w') ->
  st' = (rev hs ++ fst st, snd st ++ map ctor_event hs).
Proof.
  revert st w. induction hs as [|h hs IH]; intros st w H.
  - simpl in H. inversion H. destruct st'. simpl. now rewrite app_nil_r.
  - cbn [run_news_in] in H. unfold new_push_in in H.
    destruct (acquire P (h_kind h) w) as [w1 completed].
    destruct completed; [|discriminate H].
    apply IH in H. rewrite H. cbn [fst snd push map rev].
    rewrite <- !app_assoc. destruct h; reflexivity.
Qed.

Lemma dtor_loop_in_nil (P : process) (log : list event) (w : world P) :
  dtor_loop_in P (([], log), w) = (([], log), w).
Proof. rewrite dtor_loop_in_equation_1. reflexivity. Qed.

Lemma dtor_loop_in_cons (P : process) (h : handle) (s : sas_stack)
    (log : list event) (w : world P) :
  dtor_loop_in P ((h :: s, log), w)
  = dtor_loop_in P ((s, log ++ [dtor_event h]), release P (h_kind h) w).
Proof. rewrite dtor_loop_in_equation_1. reflexivity. Qed.

Lemma dtor_loop_in_spec (P : process) (s : sas_stack) (log : list event)
    (w : world P) :
  dtor_loop_in P ((s, log), w)
  = (([], log ++ map dtor_event s),
     fold_left (fun w' h => release P (h_kind h) w') s w).
Proof.
  revert log w. induction s as [|h s IH]; intros log w.
  - rewrite dtor_loop_in_nil. simpl. now rewrite app_nil_r.
  - rewrite dtor_loop_in_cons, IH. simpl. now rewrite <- app_assoc.
Qed.

(** Every scope that is constructed and destroyed has made the same calls,
    whatever the state of the process was and became. *)
Lemma scoped_block_in_completed {impl : deque_dtor} {eh : caller} (P : process)
    (T : list ScopedAcq) (body : list string) (user : world P -> world P)
    (log log' : list event) (w w' : world P) :
  scoped_block_in P T body user log w = (Completed log', w') ->
  log' = log ++ map ctor_event (positions T) ++ map Msg body
             ++ map dtor_event (rev (positions T)).
Proof.
  unfold scoped_block_in. intros H.
  destruct T as [|K T]; [discriminate H|].
  destruct (@rev_elts_bodies (K :: T)) as [c [Hc Hb]]; [discriminate|].
  rewrite Hc in H. unfold ScopedAcqStack_ctor_in in H.
  rewrite run_stk_builder_in_bodies, Hb in H.
  destruct (run_news_in P (positions (K :: T)) ([], log) w) as [[st|st] w1] eqn:Hrun.
  - apply run_news_in_returns in Hrun. subst st. cbn [fst snd] in H.
    rewrite dtor_loop_in_spec in H. cbn [snd] in H.
    inversion H. now rewrite app_nil_r, <- !app_assoc.
  - destruct on_throw; cbn in H;
      try destruct (destroy_elements_in P (fst st) (snd st) w1);
      discriminate H.
Qed.

Lemma new_push_stateless (i : nat) (K : ScopedAcq) (st : state) :
  new_push_in stateless i K st tt = (new_push i K st, tt).
Proof.
  unfold new_push_in, new_push. cbn [acquire stateless].
  now destruct (ctor_throws K).
Qed.

Lemma run_stk_builder_stateless (c : stk_builder_class) (st : state) :
  run_stk_builder_in stateless c st tt = (run_stk_builder c st, tt).
Proof.
  revert st. induction c as [i K | i K base IH]; intros st;
    cbn [run_stk_builder_in run_stk_builder].
  - apply new_push_stateless.
  - rewrite IH. destruct (run_stk_builder base st); [|reflexivity].
    apply new_push_stateless.
Qed.

(** With guards that keep no state, the scope in a process is the scope of
    the sections above. *)
Lemma scoped_block_stateless {impl : deque_dtor} {eh : caller}
    (T : list ScopedAcq) (body : list string) (log : list event) :
  fst (scoped_block_in stateless T body (fun w => w) log tt)
  = scoped_block T body log.
Proof.
  unfold scoped_block_in, scoped_block.
  destruct (rev_elts T (sas_size T) []) as [c|e]; [|reflexivity].
  unfold ScopedAcqStack_ctor_in, ScopedAcqStack_ctor.
  rewrite run_stk_builder_stateless.
  destruct (run_stk_builder c ([], log)) as [st|st].
  - unfold ScopedAcqStack_dtor.
    rewrite dtor_loop_in_spec, dtor_loop_spec. reflexivity.
  - destruct on_throw; reflexivity.
Qed.

(** Bodies whose constructors complete in every state all return. *)
Lemma run_news_in_total (P : process) (hs : list handle) (st : state)
    (w : world P) :
  (forall h, In h hs -> forall w', snd (acquire P (h_kind h) w') = true) ->
  exists st' w', run_news_in P hs st w = (Returns st', w').
Proof.
  revert st w. induction hs as [|h hs IH]; intros st w Hall.
  - now exists st, w.
  - cbn [run_news_in]. unfold new_push_in.
    pose proof (Hall h (or_introl eq_refl) w) as Hh.
    destruct (acquire P (h_kind h) w) as [w1 completed]. cbn [snd] in Hh.
    subst completed. apply IH. intros h' Hin. apply Hall. now right.
Qed.

Lemma scoped_block_in_completes {impl : deque_dtor} {eh : caller} (P : process)
    (T : list ScopedAcq) (body : list string) (user : world P -> world P)
    (log : list event) (w : world P) :
  T <> [] ->
  (forall K, In K T -> forall w', snd (acquire P K w') = true) ->
  exists log' w', scoped_block_in P T body user log w = (Completed log', w').
Proof.
  intros HT Hall. unfold scoped_block_in.
  destruct (rev_elts_bodies HT) as [c [Hc Hb]]. rewrite Hc.
  unfold ScopedAcqStack_ctor_in. rewrite run_stk_builder_in_bodies, Hb.
  destruct (@run_news_in_total P (positions T) ([], log) w) as [st [w1 Hrun]].
  { intros h Hin. apply Hall.
    rewrite <- (positions_from_kinds T 0). now apply in_map. }
  rewrite Hrun.
  destruct (dtor_loop_in P (fst st, snd st ++ map Msg body, user w1))
    as [st2 w2].
  now exists (snd st2), w2.
Qed.

(** C8.  Two scopes over the same list in one process, the second begun
    after the first was destroyed, whatever was logged and done to the
    state of the process in between, and whatever the guards read from and
    write to that state.  If both scopes are constructed and destroyed,
    the second makes the constructor and destructor calls of the first, in
    the same order.  Both are constructed and destroyed if the list is not
    empty and the constructors of its guards complete in every state of
    the process; otherwise whether the constructors of the second scope
    complete is up to the guards. *)
Theorem cycles_repeat {impl : deque_dtor} {eh : caller} (P : process)
    (T : list ScopedAcq) (body1 body2 : list string)
    (user1 user2 between : world P -> world P)
    (log others : list event) (w : world P) :
  (forall log1 log2 w1 w2,
     scoped_block_in P T body1 user1 log w = (Completed log1, w1) ->
     scoped_block_in P T body2 user2 (log1 ++ others) (between w1)
       = (Completed log2, w2) ->
     exists acq rel,
       log1 = log ++ acq ++ map Msg body1 ++ rel /\
       log2 = (log1 ++ others) ++ acq ++ map Msg body2 ++ rel /\
       acq = map ctor_event (positions T) /\
       rel = map dtor_event (rev (positions T))) /\
  (T <> [] ->
   (forall K, In K T -> forall w', snd (acquire P K w') = true) ->
   exists log1 log2 w1 w2,
     scoped_block_in P T body1 user1 log w = (Completed log1, w1) /\
     scoped_block_in P T body2 user2 (log1 ++ others) (between w1)
       = (Completed log2, w2)).
Proof.
  split.
  - intros log1 log2 w1 w2 H1 H2.
    exists (map ctor_event (positions T)), (map dtor_event (rev (positions T))).
    split; [exact (scoped_block_in_completed _ _ _ _ _ _ H1)|].
    split; [exact (scoped_block_in_completed _ _ _ _ _ _ H2)|].
    split; reflexivity.
  - intros HT Hall.
    destruct (@scoped_block_in_completes impl eh P T body1 user1 log w HT Hall)
      as [log1 [w1 H1]].
    destruct (@scoped_block_in_completes impl eh P T body2 user2
                (log1 ++ others) (between w1) HT Hall)
      as [log2 [w2 H2]].
    now exists log1, log2, w1, w2.
Qed.

Lemma cycles_repeat_witness :
  (exists log1 log2 acq rel,
     @scoped_block_in (counting 3) deque_front_to_back caught_by_caller
       [Res1_RAII] ["first"%string] (fun n => n) [] 0 = (Completed log1, 1) /\
     @scoped_block_in (counting 3) deque_front_to_back caught_by_caller
       [Res1_RAII] ["second"%string] (fun n => n) (log1 ++ [Msg "between"]) 1
       = (Completed log2, 2) /\
     log1 = [] ++ acq ++ [Msg "first"] ++ rel /\
     log2 = (log1 ++ [Msg "between"]) ++ acq ++ [Msg "second"] ++ rel /\
     acq = [Ctor 0 Res1_RAII] /\ rel = [Dtor 0 Res1_RAII]) /\
  (exists log1 log2 w1 w2,
     @scoped_block_in stateless deque_front_to_back caught_by_caller
       [Res1_RAII] ["first"%string] (fun u => u) [] tt = (Completed log1, w1) /\
     @scoped_block_in stateless deque_front_to_back caught_by_caller
       [Res1_RAII] ["second"%string] (fun u => u) (log1 ++ []) w1
       = (Completed log2, w2)).
Proof.
  split.
  - assert (H1 : @scoped_block_in (counting 3) deque_front_to_back caught_by_caller
                   [Res1_RAII] ["first"%string] (fun n => n) [] 0
                 = (Completed [Ctor 0 Res1_RAII; Msg "first"; Dtor 0 Res1_RAII], 1))
      by reflexivity.
    assert (H2 : @scoped_block_in (counting 3) deque_front_to_back caught_by_caller
                   [Res1_RAII] ["second"%string] (fun n => n)
                   ([Ctor 0 Res1_RAII; Msg "first"; Dtor 0 Res1_RAII]
                      ++ [Msg "between"]) ((fun n => n) 1)
                 = (Completed [Ctor 0 Res1_RAII; Msg "first"; Dtor 0 Res1_RAII;
                               Msg "between";
                               Ctor 0 Res1_RAII; Msg "second"; Dtor 0 Res1_RAII], 2))
      by reflexivity.
    destruct (@cycles_repeat deque_front_to_back caught_by_caller (counting 3)
                [Res1_RAII] ["first"%string] ["second"%string]
                (fun n => n) (fun n => n) (fun n => n) [] [Msg "between"] 0)
      as [Hsame _].
    destruct (Hsame _ _ _ _ H1 H2) as [acq [rel [E1 [E2 [Ea Er]]]]].
    eexists _, _, acq, rel.
    split; [exact H1|]. split; [exact H2|].
    split; [exact E1|]. split; [exact E2|]. split; [exact Ea | exact Er].
  - apply (@cycles_repeat deque_front_to_back caught_by_caller stateless
             [Res1_RAII] ["first"%string] ["second"%string]
             (fun u => u) (fun u => u) (fun u => u) [] [] tt).
    + discriminate.
    + intros K [<- | []] w'. reflexivity.
Defined.

(** ** Repeated classes *)

Lemma positions_from_filter_kind (p : ScopedAcq -> bool) (T : list ScopedAcq)
    (s : nat) :
  length (filter (fun h => p (h_kind h)) (positions_from s T))
  = length (filter p T).
Proof.
  revert s. induction T as [|K T IH]; intros s; cbn [positions_from filter h_kind].
  - reflexivity.
  - destruct (p K); cbn [length]; now rewrite IH.
Qed.

Lemma scope_trace_kind_counts (T : list ScopedAcq) (body : list string)
    (K : ScopedAcq) :
  count (ctor_of K)
    (map ctor_event (positions T) ++ map Msg body
       ++ map dtor_event (rev (positions T)))
    = declared K T /\
  count (dtor_of K)
    (map ctor_event (positions T) ++ map Msg body
       ++ map dtor_event (rev (positions T)))
    = declared K T.
Proof.
  rewrite !count_app. unfold declared.
  rewrite (count_map (ctor_of K) ctor_event), (count_map (dtor_of K) dtor_event).
  rewrite (@count_none _ (ctor_of K) Msg body (fun _ => eq_refl)).
  rewrite (@count_none _ (dtor_of K) Msg body (fun _ => eq_refl)).
  rewrite (@count_none _ (ctor_of K) dtor_event _ (fun _ => eq_refl)).
  rewrite (@count_none _ (dtor_of K) ctor_event _ (fun _ => eq_refl)).
  rewrite (filter_length_perm _ (Permutation_sym (Permutation_rev (positions T)))).
  change (fun x => ctor_of K (ctor_event x)) with (fun h => kind_eqb K (h_kind h)).
  change (fun x => dtor_of K (dtor_event x)) with (fun h => kind_eqb K (h_kind h)).
  unfold positions. rewrite positions_from_filter_kind. split; lia.
Qed.

(** C9.  A fully constructed stack holds one object per position of the
    list, [N] in all, whose classes read bottom to top are the declared
    list and whose identities are the positions [0 .. N-1], whether or not
    a class is declared several times.  In the trace of the scope every
    position is constructed once and destroyed once, so a class is
    constructed and destroyed as many times as it is declared. *)
Theorem one_handle_per_position {impl : deque_dtor} {eh : caller} (T : list ScopedAcq)
    (body : list string) (log : list event) :
  T <> [] -> nothrow T ->
  exists c stack_ log1,
    rev_elts T (sas_size T) [] = Built c /\
    ScopedAcqStack_ctor c log = Constructed stack_ log1 /\
    length stack_ = sas_size T /\
    map h_kind (rev stack_) = T /\
    map h_index (rev stack_) = seq 0 (sas_size T) /\
    exists tr,
      scoped_block T body log = Completed (log ++ tr) /\
      (forall i, i < sas_size T ->
         count (acquire_at i) tr = 1 /\ count (release_at i) tr = 1) /\
      (forall K,
         count (ctor_of K) tr = declared K T /\
         count (dtor_of K) tr = declared K T).
Proof.
  intros HT Hok. destruct (ctor_nothrow HT Hok) as [c [Hc Hrun]].
  exists c, (rev (positions T)), (log ++ map ctor_event (positions T)).
  split; [exact Hc|]. split; [apply Hrun|].
  unfold sas_size, positions. rewrite length_rev, rev_involutive.
  split; [apply positions_from_length|].
  split; [apply positions_from_kinds|].
  split; [apply positions_from_indices|].
  eexists. split; [now apply scoped_block_nothrow|]. split.
  - intros i Hi. destruct (scope_trace_counts T body i) as [Ha Hr].
    rewrite Ha, Hr. split; now apply positions_count_in.
  - intros K. apply scope_trace_kind_counts.
Qed.

Lemma one_handle_per_position_witness :
  [Res1_RAII; Res2_RAII; Res1_RAII] <> [] /\
  nothrow [Res1_RAII; Res2_RAII; Res1_RAII] /\
  exists stack_ tr,
    length stack_ = 3 /\
    map h_kind (rev stack_) = [Res1_RAII; Res2_RAII; Res1_RAII] /\
    @scoped_block deque_front_to_back caught_by_caller [Res1_RAII; Res2_RAII; Res1_RAII] [] []
      = Completed tr /\
    count (ctor_of Res1_RAII) tr = 2 /\ count (dtor_of Res1_RAII) tr = 2.
Proof.
  assert (H1 : [Res1_RAII; Res2_RAII; Res1_RAII] <> []) by discriminate.
  assert (H2 : nothrow [Res1_RAII; Res2_RAII; Res1_RAII])
    by (repeat constructor).
  split; [exact H1|]. split; [exact H2|].
  destruct (@one_handle_per_position deque_front_to_back caught_by_caller _ [] [] H1 H2)
    as [c [stack_ [log1 [_ [_ [Hlen [Hk [_ [tr [Hrun [_ Hcount]]]]]]]]]]].
  exists stack_, tr. split; [exact Hlen|]. split; [exact Hk|].
  split; [exact Hrun|]. exact (Hcount Res1_RAII).
Defined.

(** ** Termination of the destructor *)

Lemma pop_fst (st : state) : fst (pop st) = tl (fst st).
Proof. destruct st as [[|h s] log]; reflexivity. Qed.

Lemma tl_skipn {A : Type} (m : nat) (l : list A) : tl (skipn m l) = skipn (S m) l.
Proof.
  revert l. induction m as [|m IH]; intros [|a l]; try reflexivity.
  apply (IH l).
Qed.

(** After [m] iterations the stack has lost its [m] topmost elements. *)
Lemma pops_fst (m : nat) (s : sas_stack) (log : list event) :
  fst (pops m (s, log)) = skipn m s.
Proof.
  induction m as [|m IH]; [reflexivity|].
  unfold pops in *. rewrite Nat.iter_succ, pop_fst, IH. apply tl_skipn.
Qed.

Lemma dtor_loop_pops (s : sas_stack) (log : list event) :
  dtor_loop (s, log) = pops (length s) (s, log).
Proof.
  rewrite dtor_loop_spec.
  pose proof (pops_spec s [] log) as H. rewrite app_nil_r in H.
  symmetry. exact H.
Qed.

(** Whatever the constructor of the stack returns normally is the list of
    all positions, last declared on top. *)
Lemma ctor_constructed {impl : deque_dtor} {eh : caller} (T : list ScopedAcq)
    (c : stk_builder_class) (log log1 : list event) (stack_ : sas_stack) :
  rev_elts T (sas_size T) [] = Built c ->
  ScopedAcqStack_ctor c log = Constructed stack_ log1 ->
  nothrow T /\ stack_ = rev (positions T).
Proof.
  intros Hc Hrun.
  destruct (first_throw T) as [Hok | [T1 [K [T2 [-> [H1 HK]]]]]].
  - split; [exact Hok|]. destruct T as [|K T]; [discriminate|].
    assert (HT : K :: T <> []) by discriminate.
    destruct (ctor_nothrow HT Hok) as [c' [Hc' Hrun']].
    rewrite Hc in Hc'. inversion Hc'; subst c'.
    rewrite Hrun' in Hrun. now inversion Hrun.
  - exfalso.
    pose proof (@scoped_block_throw impl eh T1 T2 K [] log H1 HK) as Hs.
    unfold scoped_block in Hs. rewrite Hc, Hrun in Hs.
    destruct on_throw; discriminate Hs.
Qed.

(** C10.  The destructor is a total function of the stack and the log.
    Run on a stack of any height it makes exactly as many iterations as
    the stack holds objects: before each of them the stack is not empty,
    each removes exactly one object, and after the last the stack is
    empty.  The stack of a fully constructed [N]-element [ScopedAcqStack]
    holds [N] objects, so its destructor pops [N] times. *)
Theorem destructor_terminates (stack_ : sas_stack) (log : list event) :
  ScopedAcqStack_dtor stack_ log = pops (length stack_) (stack_, log) /\
  fst (ScopedAcqStack_dtor stack_ log) = [] /\
  (forall m, m < length stack_ ->
     empty (fst (pops m (stack_, log))) = false /\
     length (fst (pops (S m) (stack_, log))) + 1
       = length (fst (pops m (stack_, log)))) /\
  (forall (impl : deque_dtor) (eh : caller) T c log0 log1,
     rev_elts T (sas_size T) [] = Built c ->
     ScopedAcqStack_ctor c log0 = Constructed stack_ log1 ->
     length stack_ = sas_size T).
Proof.
  unfold ScopedAcqStack_dtor. split; [apply dtor_loop_pops|].
  split; [now rewrite dtor_loop_spec|]. split.
  - intros m Hm. rewrite !pops_fst, !length_skipn. split; [|lia].
    destruct (skipn m stack_) eqn:E; [|reflexivity].
    apply (f_equal (@length handle)) in E. rewrite length_skipn in E.
    simpl in E. lia.
  - intros impl eh T c log0 log1 Hc Hrun.
    destruct (ctor_constructed _ _ Hc Hrun) as [_ ->].
    unfold sas_size, positions. now rewrite length_rev, positions_from_length.
Qed.

Lemma destructor_terminates_witness :
  ScopedAcqStack_dtor (rev (positions [Res1_RAII; Res2_RAII; Res3_RAII])) []
    = pops 3 (rev (positions [Res1_RAII; Res2_RAII; Res3_RAII]), []) /\
  empty (fst (pops 2 (rev (positions [Res1_RAII; Res2_RAII; Res3_RAII]), [])))
    = false /\
  length (rev (positions [Res1_RAII; Res2_RAII; Res3_RAII]))
    = sas_size [Res1_RAII; Res2_RAII; Res3_RAII].
Proof.
  pose proof (destructor_terminates
                (rev (positions [Res1_RAII; Res2_RAII; Res3_RAII])) [])
    as [H1 [_ [H3 H4]]].
  split; [exact H1|]. split.
  - apply (H3 2). simpl. lia.
  - apply (H4 deque_front_to_back caught_by_caller
              [Res1_RAII; Res2_RAII; Res3_RAII]
              (stk_builder_rec 2 Res3_RAII
                 (stk_builder_rec 1 Res2_RAII (stk_builder_base 0 Res1_RAII)))
              [] [Ctor 0 Res1_RAII; Ctor 1 Res2_RAII; Ctor 2 Res3_RAII]);
      reflexivity.
Defined.

(** ** A constructor that throws *)

Lemma destroy_order_single {impl : deque_dtor} (h : handle) :
  destroy_order [h] = [h].
Proof.
  apply Permutation_length_1_inv, Permutation_sym, destroy_order_perm.
Qed.

Lemma throw_trace_counts {impl : deque_dtor} (T1 : list ScopedAcq)
    (K : ScopedAcq) (i : nat) :
  count (acquire_at i)
    (map ctor_event (positions T1)
       ++ CtorThrow (length T1) K
       :: map dtor_event (destroy_order (rev (positions T1))))
    = length (filter (fun h => i =? h_index h) (positions T1))
      + (if i =? length T1 then 1 else 0) /\
  count (release_at i)
    (map ctor_event (positions T1)
       ++ CtorThrow (length T1) K
       :: map dtor_event (destroy_order (rev (positions T1))))
    = length (filter (fun h => i =? h_index h) (positions T1)).
Proof.
  rewrite !count_app.
  change (CtorThrow (length T1) K
            :: map dtor_event (destroy_order (rev (positions T1))))
    with ([CtorThrow (length T1) K]
            ++ map dtor_event (destroy_order (rev (positions T1)))).
  rewrite !count_app.
  rewrite count_acquire_ctor, count_acquire_dtor.
  rewrite count_release_ctor, count_release_dtor.
  rewrite (filter_length_perm _ (destroy_order_perm (rev (positions T1)))).
  rewrite (filter_length_perm _ (Permutation_sym (Permutation_rev (positions T1)))).
  unfold count at 1 2. cbn [filter acquire_at release_at].
  destruct (i =? length T1); cbn [length]; split; lia.
Qed.

Lemma count_cons (p : event -> bool) (e : event) (l : list event) :
  count p (e :: l) = (if p e then 1 else 0) + count p l.
Proof. unfold count. simpl. now destruct (p e). Qed.

Lemma filter_msg_none {A : Type} (f : A -> event) (l : list A) :
  (forall x, is_msg (f x) = false) -> filter is_msg (map f l) = [].
Proof.
  intros H. induction l as [|x l IH]; simpl; [reflexivity|]. now rewrite H.
Qed.

Lemma filter_msg_body (body : list string) :
  filter is_msg (map Msg body) = map Msg body.
Proof.
  induction body as [|m body IH]; simpl; [reflexivity|]. now rewrite IH.
Qed.

(** The trace up to a throwing constructor, when the stack is not unwound. *)
Lemma throw_trace_counts_not_unwound (T1 : list ScopedAcq) (K : ScopedAcq)
    (i : nat) :
  count (acquire_at i)
    (map ctor_event (positions T1) ++ [CtorThrow (length T1) K])
    = length (filter (fun h => i =? h_index h) (positions T1))
      + (if i =? length T1 then 1 else 0) /\
  count (release_at i)
    (map ctor_event (positions T1) ++ [CtorThrow (length T1) K]) = 0.
Proof.
  rewrite !count_app, !count_cons, count_acquire_ctor, count_release_ctor.
  cbn [acquire_at release_at count filter length]. split; lia.
Qed.

(** In the trace up to and after a throwing constructor, the positions
    before it were entered once, the throwing one once, no later one. *)
Lemma throw_trace_acquires (T1 : list ScopedAcq) (i : nat) :
  length (filter (fun h => i =? h_index h) (positions T1))
    + (if i =? length T1 then 1 else 0)
  = if i <=? length T1 then 1 else 0.
Proof.
  destruct (Nat.lt_trichotomy i (length T1)) as [H | [H | H]].
  - rewrite positions_count_in by exact H.
    replace (i =? length T1) with false by (symmetry; apply Nat.eqb_neq; lia).
    now replace (i <=? length T1) with true by (symmetry; apply Nat.leb_le; lia).
  - rewrite positions_count_out by lia. subst i.
    now rewrite Nat.eqb_refl, Nat.leb_refl.
  - rewrite positions_count_out by lia.
    replace (i =? length T1) with false by (symmetry; apply Nat.eqb_neq; lia).
    now replace (i <=? length T1) with false by (symmetry; apply Nat.leb_gt; lia).
Qed.

(** The claim C3 as it is worded fails even where a caller catches the
    exception, if the container destroys its elements from the front: with
    the third constructor throwing, the object of position [0] is
    destroyed before the object of position [1], not after it. *)
Lemma rollback_not_in_reverse_order :
  @scoped_block deque_front_to_back caught_by_caller
    [Res1_RAII; Res2_RAII; Failing_RAII] [] []
    = Propagated [Ctor 0 Res1_RAII; Ctor 1 Res2_RAII; CtorThrow 2 Failing_RAII;
                  Dtor 0 Res1_RAII; Dtor 1 Res2_RAII] /\
  @scoped_block deque_front_to_back caught_by_caller
    [Res1_RAII; Res2_RAII; Failing_RAII] [] []
    <> Propagated [Ctor 0 Res1_RAII; Ctor 1 Res2_RAII; CtorThrow 2 Failing_RAII;
                   Dtor 1 Res2_RAII; Dtor 0 Res1_RAII].
Proof.
  split; [reflexivity|]. intros H. vm_compute in H. discriminate H.
Qed.

(** C3, amended.  If the constructor of position [k] throws and the stack
    is unwound, the objects of positions [0 .. k-1] are destroyed, each
    exactly once, before the exception reaches the handler of the caller
    that catches it, so none of them outlives the failed construction.
    They are destroyed as elements of the container, in the order in which
    the container's destructor takes them; the pop loop of
    [~ScopedAcqStack()] is not involved.  If no caller has a handler,
    [std::terminate] is called, and where the stack is not unwound before
    that, none of these objects is destroyed. *)
Theorem failed_construction_releases_acquired {impl : deque_dtor} {eh : caller}
    (T1 T2 : list ScopedAcq) (K : ScopedAcq) (body : list string)
    (log : list event) :
  nothrow T1 -> ctor_throws K = true ->
  exists released,
    released = destroy_order (rev (positions T1)) /\
    Permutation released (positions T1) /\
    (forall i, i < length T1 ->
       count (release_at i) (map dtor_event released) = 1) /\
    scoped_block (T1 ++ K :: T2) body log =
    match on_throw with
    | handler_found =>
        Propagated (log ++ map ctor_event (positions T1)
                        ++ CtorThrow (length T1) K :: map dtor_event released)
    | terminate_unwound =>
        Terminated (log ++ map ctor_event (positions T1)
                        ++ CtorThrow (length T1) K :: map dtor_event released)
    | terminate_not_unwound =>
        Terminated (log ++ map ctor_event (positions T1)
                        ++ [CtorThrow (length T1) K])
    end.
Proof.
  intros H1 HK. exists (destroy_order (rev (positions T1))).
  split; [reflexivity|].
  assert (Hp : Permutation (destroy_order (rev (positions T1))) (positions T1)).
  { eapply Permutation_trans; [apply destroy_order_perm|].
    apply Permutation_sym, Permutation_rev. }
  split; [exact Hp|]. split.
  - intros i Hi.
    rewrite count_release_dtor, (filter_length_perm _ Hp).
    now apply positions_count_in.
  - now apply scoped_block_throw.
Qed.

Lemma failed_construction_releases_acquired_witness :
  nothrow [Res1_RAII; Res2_RAII] /\ ctor_throws Failing_RAII = true /\
  exists released,
    released = [Handle 0 Res1_RAII; Handle 1 Res2_RAII] /\
    @scoped_block deque_front_to_back caught_by_caller
      ([Res1_RAII; Res2_RAII] ++ Failing_RAII :: [Res3_RAII]) [] []
      = Propagated ([] ++ map ctor_event (positions [Res1_RAII; Res2_RAII])
                       ++ CtorThrow 2 Failing_RAII :: map dtor_event released).
Proof.
  assert (H1 : nothrow [Res1_RAII; Res2_RAII]) by (repeat constructor).
  assert (H2 : ctor_throws Failing_RAII = true) by reflexivity.
  split; [exact H1|]. split; [exact H2|].
  destruct (@failed_construction_releases_acquired
              deque_front_to_back caught_by_caller
              [Res1_RAII; Res2_RAII] [Res3_RAII] Failing_RAII [] [] H1 H2)
    as [released [Hrel [_ [_ Hrun]]]].
  exists released. split; [exact Hrel | exact Hrun].
Defined.

(** The claim C4 as it is worded fails where no caller has a handler and
    the stack is not unwound: the failure is not surfaced to a caller,
    [std::terminate] is called, and the guard acquired before the failing
    one is not released. *)
Lemma uncaught_failure_releases_nothing :
  @scoped_block deque_front_to_back uncaught_not_unwound
    [Res1_RAII; Failing_RAII; Res3_RAII] [] []
    = Terminated [Ctor 0 Res1_RAII; CtorThrow 1 Failing_RAII] /\
  @scoped_block deque_front_to_back uncaught_not_unwound
    [Res1_RAII; Failing_RAII; Res3_RAII] [] []
    <> Propagated [Ctor 0 Res1_RAII; CtorThrow 1 Failing_RAII; Dtor 0 Res1_RAII].
Proof.
  split; [reflexivity|]. intros H. vm_compute in H. discriminate H.
Qed.

(** C4, amended.  If the constructor of position [k] throws, the
    constructors of positions [0 .. k] have been entered once each, no
    constructor of a later position is ever entered, the body of the scope
    does not run and nothing is destroyed at an index from [k] on.  If a
    caller has a handler, the exception reaches it and the objects of
    positions [0 .. k-1] are destroyed exactly once each; with one guard
    [A] before the failing one the trace is [A] constructed, the failing
    constructor, [A] destroyed.  If no caller has a handler,
    [std::terminate] is called: after the same destructions where the
    stack is unwound, and with no object destroyed where it is not, the
    trace then being [A] constructed, the failing constructor. *)
Theorem failed_construction_stops {impl : deque_dtor} {eh : caller}
    (T1 T2 : list ScopedAcq) (K : ScopedAcq) (body : list string)
    (log : list event) :
  nothrow T1 -> ctor_throws K = true ->
  exists tr,
    scoped_block (T1 ++ K :: T2) body log
      = match on_throw with
        | handler_found => Propagated (log ++ tr)
        | terminate_unwound | terminate_not_unwound => Terminated (log ++ tr)
        end /\
    (forall i, i <= length T1 -> count (acquire_at i) tr = 1) /\
    (forall j, length T1 < j -> count (acquire_at j) tr = 0) /\
    filter is_msg tr = [] /\
    (forall i, length T1 <= i -> count (release_at i) tr = 0) /\
    match on_throw with
    | handler_found | terminate_unwound =>
        (forall i, i < length T1 -> count (release_at i) tr = 1) /\
        (forall A, T1 = [A] -> tr = [Ctor 0 A; CtorThrow 1 K; Dtor 0 A])
    | terminate_not_unwound =>
        (forall i, count (release_at i) tr = 0) /\
        (forall A, T1 = [A] -> tr = [Ctor 0 A; CtorThrow 1 K])
    end.
Proof.
  intros H1 HK. rewrite scoped_block_throw by assumption.
  assert (Hunwound :
    let tr := map ctor_event (positions T1)
                ++ CtorThrow (length T1) K
                :: map dtor_event (destroy_order (rev (positions T1))) in
    (forall i, i <= length T1 -> count (acquire_at i) tr = 1) /\
    (forall j, length T1 < j -> count (acquire_at j) tr = 0) /\
    filter is_msg tr = [] /\
    (forall i, length T1 <= i -> count (release_at i) tr = 0) /\
    (forall i, i < length T1 -> count (release_at i) tr = 1) /\
    (forall A, T1 = [A] -> tr = [Ctor 0 A; CtorThrow 1 K; Dtor 0 A])).
  { cbv zeta. repeat split.
    - intros i Hi. destruct (throw_trace_counts T1 K i) as [Ha _].
      rewrite Ha, throw_trace_acquires.
      now replace (i <=? length T1) with true by (symmetry; apply Nat.leb_le; lia).
    - intros j Hj. destruct (throw_trace_counts T1 K j) as [Ha _].
      rewrite Ha, throw_trace_acquires.
      now replace (j <=? length T1) with false by (symmetry; apply Nat.leb_gt; lia).
    - rewrite filter_app. cbn [filter is_msg].
      now rewrite !filter_msg_none by reflexivity.
    - intros i Hi. destruct (throw_trace_counts T1 K i) as [_ Hr]. rewrite Hr.
      now apply positions_count_out.
    - intros i Hi. destruct (throw_trace_counts T1 K i) as [_ Hr]. rewrite Hr.
      now apply positions_count_in.
    - intros A ->. cbn [positions positions_from rev app map length].
      rewrite destroy_order_single. reflexivity. }
  cbv zeta in Hunwound.
  destruct Hunwound as [Ha [Hl [Hm [Hr0 [Hr1 Habc]]]]].
  destruct on_throw.
  - eexists. split; [reflexivity|]. repeat split; assumption.
  - eexists. split; [reflexivity|]. repeat split; assumption.
  - exists (map ctor_event (positions T1) ++ [CtorThrow (length T1) K]).
    split; [reflexivity|]. repeat split.
    + intros i Hi. destruct (throw_trace_counts_not_unwound T1 K i) as [Hc _].
      rewrite Hc, throw_trace_acquires.
      now replace (i <=? length T1) with true by (symmetry; apply Nat.leb_le; lia).
    + intros j Hj. destruct (throw_trace_counts_not_unwound T1 K j) as [Hc _].
      rewrite Hc, throw_trace_acquires.
      now replace (j <=? length T1) with false by (symmetry; apply Nat.leb_gt; lia).
    + rewrite filter_app. cbn [filter is_msg].
      now rewrite filter_msg_none by reflexivity.
    + intros i _. apply (throw_trace_counts_not_unwound T1 K i).
    + intros i. apply (throw_trace_counts_not_unwound T1 K i).
    + intros A ->. reflexivity.
Qed.

Lemma failed_construction_stops_witness :
  nothrow [Res1_RAII] /\ ctor_throws Failing_RAII = true /\
  exists tr,
    @scoped_block deque_front_to_back caught_by_caller
      ([Res1_RAII] ++ Failing_RAII :: [Res3_RAII]) ["inside the scope"%string] []
      = Propagated ([] ++ tr) /\
    tr = [Ctor 0 Res1_RAII; CtorThrow 1 Failing_RAII; Dtor 0 Res1_RAII] /\
    count (acquire_at 2) tr = 0.
Proof.
  assert (H1 : nothrow [Res1_RAII]) by (repeat constructor).
  assert (H2 : ctor_throws Failing_RAII = true) by reflexivity.
  split; [exact H1|]. split; [exact H2|].
  destruct (@failed_construction_stops deque_front_to_back caught_by_caller
              [Res1_RAII] [Res3_RAII] Failing_RAII
              ["inside the scope"%string] [] H1 H2)
    as [tr [Hrun [_ [Hlater [_ [_ [_ Habc]]]]]]].
  exists tr. split; [exact Hrun|]. split.
  - apply (Habc Res1_RAII). reflexivity.
  - apply (Hlater 2). simpl. lia.
Defined.

(** ** The empty list *)

(** The claim C6 as it is worded fails: a scope over the empty list does
    not complete, because it does not exist. *)
Lemma empty_scope_does_not_complete :
  ~ exists log, @scoped_block deque_front_to_back caught_by_caller [] [] [] = Completed log.
Proof.
  intros [log H]. discriminate H.
Qed.

(** C6, amended.  For the empty list the type can be named and its
    [sas_size] is [0], but its constructor is ill-formed:
    [rev_elts<type, 0>] derives from [stk_builder<type>] with an empty
    index pack, for which only the declaration of the primary template
    exists.  A program that defines a [ScopedAcqStack<>] object is
    rejected when it is built, so no constructor or destructor of a guard
    is ever called for it. *)
Theorem empty_list_rejected :
  sas_size [] = 0 /\
  rev_elts [] (sas_size []) [] = Ill_formed incomplete_stk_builder /\
  forall (impl : deque_dtor) (eh : caller) (body : list string)
         (log : list event),
    scoped_block [] body log = Rejected incomplete_stk_builder.
Proof.
  split; [reflexivity|]. split; [reflexivity|].
  intros impl eh body log. apply scoped_block_empty.
Qed.

(** * Further properties of the builder templates *)

Lemma stk_builder_cons2 (T : list ScopedAcq) (i j : nat) (Js : list nat) :
  stk_builder T (i :: j :: Js) =
  (base <- stk_builder T (j :: Js) ;;
   K <- sas_element i T ;;
   Built (stk_builder_rec i K base)).
Proof. reflexivity. Qed.

(** A pack of indices in range is well-formed, and the constructor runs
    the bodies from the last index of the pack to the first. *)
Lemma stk_builder_pack (T : list ScopedAcq) (Is : list nat) :
  Is <> [] -> Forall (fun i => i < sas_size T) Is ->
  exists c hs,
    stk_builder T Is = Built c /\
    map h_index hs = rev Is /\
    Forall (declared_at T) hs /\
    chain_length c = length Is /\
    forall st, run_stk_builder c st = run_news hs st.
Proof.
  unfold sas_size. induction Is as [|i Is IH]; intros Hne Hin; [congruence|].
  inversion Hin as [|? ? Hi Hrest]; subst.
  destruct (nth_error T i) as [K|] eqn:HK.
  2:{ apply nth_error_None in HK. lia. }
  destruct Is as [|j Js].
  - exists (stk_builder_base i K), [Handle i K]. repeat split.
    + simpl. now rewrite sas_element_nth_error, HK.
    + constructor; [exact HK | constructor].
    + intros st. now rewrite run_news_single.
  - destruct IH as [base [hs [Hb [Hidx [Hdecl [Hlen Hrun]]]]]];
      [discriminate | exact Hrest |].
    exists (stk_builder_rec i K base), (hs ++ [Handle i K]). repeat split.
    + rewrite stk_builder_cons2, Hb. cbn [bind_built].
      now rewrite sas_element_nth_error, HK.
    + rewrite map_app, Hidx. reflexivity.
    + apply Forall_app. split; [exact Hdecl|].
      constructor; [exact HK | constructor].
    + cbn [chain_length]. now rewrite Hlen.
    + intros st. rewrite run_news_app, <- Hrun. cbn [run_stk_builder].
      destruct (run_stk_builder base st); [|reflexivity].
      now rewrite run_news_single.
Qed.

Lemma stk_builder_built_in_range (T : list ScopedAcq) (Is : list nat)
    (c : stk_builder_class) :
  stk_builder T Is = Built c ->
  Is <> [] /\ Forall (fun i => i < sas_size T) Is.
Proof.
  intros Hc. split.
  - intros ->. discriminate Hc.
  - apply Forall_forall. intros i Hi.
    destruct (Nat.lt_ge_cases i (sas_size T)) as [Hlt | Hge]; [exact Hlt|].
    destruct (@stk_builder_out_of_range T Is i Hi Hge) as [e He].
    rewrite He in Hc. discriminate Hc.
Qed.

(** X1.  [stk_builder<T, Is...>] is well-formed exactly when the index
    pack is not empty and every index of it is below the number of element
    types. *)
Theorem stk_builder_well_formed_iff (T : list ScopedAcq) (Is : list nat) :
  (exists c, stk_builder T Is = Built c) <->
  Is <> [] /\ Forall (fun i => i < sas_size T) Is.
Proof.
  split.
  - intros [c Hc]. now apply stk_builder_built_in_range with (c := c).
  - intros [Hne Hin].
    destruct (@stk_builder_pack T Is Hne Hin) as [c [_ [Hc _]]]. now exists c.
Qed.

Lemma stk_builder_well_formed_iff_witness :
  (exists c, stk_builder [Res1_RAII; Res2_RAII; Res3_RAII] [1; 1; 0] = Built c) /\
  ~ (exists c, stk_builder [Res1_RAII; Res2_RAII; Res3_RAII] [0; 3] = Built c).
Proof.
  split.
  - apply stk_builder_well_formed_iff. split; [discriminate|].
    unfold sas_size. repeat constructor.
  - intros H. apply stk_builder_well_formed_iff in H. destruct H as [_ H].
    inversion H as [|? ? _ H']. inversion H' as [|? ? H3 _].
    unfold sas_size in H3. simpl in H3. lia.
Defined.

(** X2.  The constructor of a well-formed [stk_builder<T, Is...>] runs one
    body per index of the pack, from the last index of the pack to the
    first, each allocating the class declared at its index; an index that
    occurs twice in the pack is constructed twice. *)
Theorem stk_builder_runs_pack_backwards (T : list ScopedAcq) (Is : list nat)
    (c : stk_builder_class) :
  stk_builder T Is = Built c ->
  exists hs,
    map h_index hs = rev Is /\
    Forall (declared_at T) hs /\
    chain_length c = length Is /\
    forall st, run_stk_builder c st = run_news hs st.
Proof.
  intros Hc. destruct (@stk_builder_built_in_range T Is c Hc) as [Hne Hin].
  destruct (@stk_builder_pack T Is Hne Hin) as [c' [hs [Hc' H]]].
  rewrite Hc in Hc'. inversion Hc'; subst c'. now exists hs.
Qed.

Lemma stk_builder_runs_pack_backwards_witness :
  stk_builder [Res1_RAII; Res2_RAII; Res3_RAII] [0; 2]
    = Built (stk_builder_rec 0 Res1_RAII (stk_builder_base 2 Res3_RAII)) /\
  exists hs,
    map h_index hs = [2; 0] /\
    forall st,
      run_stk_builder
        (stk_builder_rec 0 Res1_RAII (stk_builder_base 2 Res3_RAII)) st
      = run_news hs st.
Proof.
  assert (H : stk_builder [Res1_RAII; Res2_RAII; Res3_RAII] [0; 2]
              = Built (stk_builder_rec 0 Res1_RAII (stk_builder_base 2 Res3_RAII)))
    by reflexivity.
  split; [exact H|].
  destruct (@stk_builder_runs_pack_backwards _ _ _ H) as [hs [Hidx [_ [_ Hrun]]]].
  exists hs. split; [exact Hidx | exact Hrun].
Defined.

Lemma positions_declared (T : list ScopedAcq) : Forall (declared_at T) (positions T).
Proof.
  apply Forall_forall. intros h Hin.
  destruct (In_nth_error _ _ Hin) as [n Hn].
  unfold positions in Hn. rewrite positions_from_nth_error in Hn.
  destruct (nth_error T n) as [K|] eqn:HK; [|discriminate].
  simpl in Hn. inversion Hn; subst h. exact HK.
Qed.

(** Objects of declared classes are determined by their indices. *)
Lemma declared_handles_unique (T : list ScopedAcq) (hs hs' : list handle) :
  map h_index hs = map h_index hs' ->
  Forall (declared_at T) hs -> Forall (declared_at T) hs' -> hs = hs'.
Proof.
  revert hs'. induction hs as [|h hs IH]; intros [|h' hs'] Hidx Hd Hd';
    try discriminate; [reflexivity|].
  inversion Hidx as [[Hi Hrest]].
  inversion Hd as [|? ? Hh Hhs]; inversion Hd' as [|? ? Hh' Hhs']; subst.
  f_equal; [|now apply IH].
  unfold declared_at in Hh, Hh'. rewrite Hi, Hh' in Hh.
  destruct h, h'; simpl in *. inversion Hh. congruence.
Qed.

(** X3.  With the index pack [0, ..., N-1] of a tuple-like expansion,
    [stk_builder] would construct the guards from the last declared to the
    first and leave the first declared on top of the stack, so the pop
    loop of the destructor would release the guards in declared order.
    This is the order that the reversal of the pack by [rev_elts] avoids. *)
Theorem tuple_pack_constructs_right_to_left {impl : deque_dtor} {eh : caller}
    (T : list ScopedAcq) (log : list event) :
  T <> [] -> nothrow T ->
  exists c,
    stk_builder T (seq 0 (sas_size T)) = Built c /\
    ScopedAcqStack_ctor c log
      = Constructed (positions T) (log ++ map ctor_event (rev (positions T))) /\
    forall log2,
      ScopedAcqStack_dtor (positions T) log2
        = ([], log2 ++ map dtor_event (positions T)).
Proof.
  intros HT Hok.
  assert (Hne : seq 0 (sas_size T) <> []).
  { unfold sas_size. destruct T; [congruence | discriminate]. }
  assert (Hin : Forall (fun i => i < sas_size T) (seq 0 (sas_size T))).
  { apply Forall_forall. intros i Hi. apply in_seq in Hi. lia. }
  destruct (@stk_builder_pack T _ Hne Hin) as [c [hs [Hc [Hidx [Hd [_ Hrun]]]]]].
  assert (Hhs : hs = rev (positions T)).
  { apply (@declared_handles_unique T); [| exact Hd |].
    - rewrite Hidx, map_rev. unfold positions, sas_size.
      now rewrite positions_from_indices.
    - apply Forall_rev, positions_declared. }
  subst hs. exists c. split; [exact Hc|]. split.
  - unfold ScopedAcqStack_ctor. rewrite Hrun, run_news_nothrow.
    + cbn [fst snd]. now rewrite rev_involutive, app_nil_r.
    + apply Forall_rev. now apply positions_from_nothrow.
  - intros log2. apply dtor_loop_spec.
Qed.

Lemma tuple_pack_constructs_right_to_left_witness :
  [Res1_RAII; Res2_RAII; Res3_RAII] <> [] /\
  nothrow [Res1_RAII; Res2_RAII; Res3_RAII] /\
  exists c,
    stk_builder [Res1_RAII; Res2_RAII; Res3_RAII] [0; 1; 2] = Built c /\
    @ScopedAcqStack_ctor deque_front_to_back caught_by_caller c []
      = Constructed (positions [Res1_RAII; Res2_RAII; Res3_RAII])
          [Ctor 2 Res3_RAII; Ctor 1 Res2_RAII; Ctor 0 Res1_RAII].
Proof.
  assert (H1 : [Res1_RAII; Res2_RAII; Res3_RAII] <> []) by discriminate.
  assert (H2 : nothrow [Res1_RAII; Res2_RAII; Res3_RAII])
    by (repeat constructor).
  split; [exact H1|]. split; [exact H2|].
  destruct (@tuple_pack_constructs_right_to_left deque_front_to_back caught_by_caller _ [] H1 H2)
    as [c [Hc [Hrun _]]].
  exists c. split; [exact Hc | exact Hrun].
Defined.

(** X4.  [rev_elts<T, I>] is well-formed exactly for [1 <= I <= N], and
    its constructor then builds the guards of positions [0 .. I-1], in
    that order: with [I] below [N] the last [N - I] guards are left out,
    with [I] above [N] or [I = 0] the program is rejected. *)
Theorem rev_elts_count (T : list ScopedAcq) (I : nat) :
  ((exists c, rev_elts T I [] = Built c) <-> 0 < I <= sas_size T) /\
  forall c, rev_elts T I [] = Built c ->
    forall st, run_stk_builder c st = run_news (firstn I (positions T)) st.
Proof.
  rewrite rev_elts_indices. cbn [app]. split; [split|].
  - intros [c Hc]. destruct (@stk_builder_built_in_range T _ c Hc) as [Hne Hin].
    destruct I as [|n]; [now contradiction Hne|]. split; [lia|].
    rewrite Forall_forall in Hin. specialize (Hin n).
    assert (In n (rev (seq 0 (S n)))) by (apply in_rev; rewrite rev_involutive;
                                           apply in_seq; lia).
    specialize (Hin H). lia.
  - intros [H0 HN]. destruct I as [|n]; [lia|].
    destruct (@stk_builder_prefix T n) as [c [Hc _]]; [unfold sas_size in HN; lia|].
    now exists c.
  - intros c Hc st. destruct (@stk_builder_built_in_range T _ c Hc) as [Hne Hin].
    destruct I as [|n]; [now contradiction Hne|].
    rewrite Forall_forall in Hin. specialize (Hin n).
    assert (In n (rev (seq 0 (S n)))) by (apply in_rev; rewrite rev_involutive;
                                           apply in_seq; lia).
    specialize (Hin H). unfold sas_size in Hin.
    destruct (@stk_builder_prefix T n Hin) as [c' [Hc' Hrun]].
    rewrite Hc in Hc'. inversion Hc'; subst c'. apply Hrun.
Qed.

Lemma rev_elts_count_witness :
  (exists c, rev_elts [Res1_RAII; Res2_RAII; Res3_RAII] 2 [] = Built c) /\
  ~ (exists c, rev_elts [Res1_RAII; Res2_RAII; Res3_RAII] 4 [] = Built c) /\
  forall st,
    run_stk_builder (stk_builder_rec 1 Res2_RAII (stk_builder_base 0 Res1_RAII)) st
    = run_news [Handle 0 Res1_RAII; Handle 1 Res2_RAII] st.
Proof.
  split; [|split].
  - apply (rev_elts_count [Res1_RAII; Res2_RAII; Res3_RAII] 2).
    unfold sas_size. simpl. lia.
  - intros H. apply (rev_elts_count [Res1_RAII; Res2_RAII; Res3_RAII] 4) in H.
    unfold sas_size in H. simpl in H. lia.
  - apply (rev_elts_count [Res1_RAII; Res2_RAII; Res3_RAII] 2). reflexivity.
Defined.

(** X5.  Whatever chain of [stk_builder] classes runs on whatever stack,
    the elements already on the stack stay where they are.  If the chain
    returns, one object per class of the chain has been pushed on top and
    the log has grown by their constructions, oldest first.  If it throws,
    fewer objects than classes have been pushed, all of them constructed
    before the throwing constructor, which is the last entry of the log. *)
Theorem builder_pushes_what_it_constructs (c : stk_builder_class)
    (s : sas_stack) (log : list event) :
  match run_stk_builder c (s, log) with
  | Returns st' =>
      exists new,
        fst st' = new ++ s /\
        snd st' = log ++ map ctor_event (rev new) /\
        length new = chain_length c
  | Throws st' =>
      exists new i K,
        fst st' = new ++ s /\
        snd st' = log ++ map ctor_event (rev new) ++ [CtorThrow i K] /\
        length new < chain_length c /\
        ctor_throws K = true
  end.
Proof.
  induction c as [i K | i K base IH]; cbn [run_stk_builder chain_length].
  - unfold new_push. destruct (ctor_throws K) eqn:HK; cbn [fst snd].
    + exists [], i, K. repeat split; [simpl; lia | exact HK].
    + exists [Handle i K]. repeat split.
  - destruct (run_stk_builder base (s, log)) as [st' | st'].
    + destruct IH as [new [Hs [Hl Hlen]]].
      unfold new_push. destruct (ctor_throws K) eqn:HK; cbn [fst snd].
      * exists new, i, K. rewrite Hs, Hl, <- app_assoc.
        repeat split; [simpl; lia | exact HK].
      * exists (Handle i K :: new). rewrite Hs, Hl. unfold push.
        cbn [rev length]. rewrite map_app, <- app_assoc.
        repeat split. now rewrite Hlen.
    + destruct IH as [new [j [K' [Hs [Hl [Hlen HK']]]]]].
      exists new, j, K'. repeat split; try assumption. lia.
Qed.

(** * Further properties of one scope *)

Lemma count_ctor_done (i : nat) (hs : list handle) :
  count (ctor_done_at i) (map ctor_event hs) =
  length (filter (fun h => i =? h_index h) hs).
Proof. apply (count_map (ctor_done_at i) ctor_event). Qed.

(** X6.  In a scope that is constructed, every guard is alive while the
    body runs: the trace is a first part in which each position is
    constructed once and nothing is destroyed, then the messages of the
    body, then a last part in which nothing is constructed. *)
Theorem guards_alive_during_body {impl : deque_dtor} {eh : caller} (T : list ScopedAcq)
    (body : list string) (log : list event) :
  T <> [] -> nothrow T ->
  exists pre post,
    scoped_block T body log = Completed (log ++ pre ++ map Msg body ++ post) /\
    (forall i, i < sas_size T -> count (ctor_done_at i) pre = 1) /\
    (forall i, count (release_at i) pre = 0) /\
    (forall i, count (acquire_at i) post = 0) /\
    filter is_msg pre = [] /\ filter is_msg post = [].
Proof.
  intros HT Hok.
  exists (map ctor_event (positions T)), (map dtor_event (rev (positions T))).
  split; [now apply scoped_block_nothrow|].
  split; [|split; [|split; [|split]]].
  - intros i Hi. rewrite count_ctor_done. now apply positions_count_in.
  - intros i. apply count_release_ctor.
  - intros i. apply count_acquire_dtor.
  - now apply filter_msg_none.
  - now apply filter_msg_none.
Qed.

Lemma guards_alive_during_body_witness :
  [Res1_RAII; Res2_RAII] <> [] /\ nothrow [Res1_RAII; Res2_RAII] /\
  exists pre post,
    @scoped_block deque_front_to_back caught_by_caller [Res1_RAII; Res2_RAII]
      ["inside the scope"%string] []
      = Completed ([] ++ pre ++ [Msg "inside the scope"] ++ post) /\
    count (release_at 1) pre = 0 /\ count (acquire_at 0) post = 0.
Proof.
  assert (H1 : [Res1_RAII; Res2_RAII] <> []) by discriminate.
  assert (H2 : nothrow [Res1_RAII; Res2_RAII]) by (repeat constructor).
  split; [exact H1|]. split; [exact H2|].
  destruct (@guards_alive_during_body deque_front_to_back caught_by_caller _
              ["inside the scope"%string] [] H1 H2)
    as [pre [post [Hrun [_ [Hr [Ha _]]]]]].
  exists pre, post. split; [exact Hrun|]. split; [apply Hr | apply Ha].
Defined.

(** X7.  In a scope whose guard constructors all complete, the guard
    declared first is constructed before everything else of the scope and
    destroyed after everything else: the trace starts with its
    construction, ends with its destruction, and does not touch position
    [0] in between.  (The comment on [OpenSSL_RAIIinit] relies on this:
    declared first, it is destroyed last.  When a later constructor
    throws, the order of destruction is the container's.) *)
Theorem first_declared_is_destroyed_last {impl : deque_dtor} {eh : caller} (K : ScopedAcq)
    (T' : list ScopedAcq) (body : list string) (log : list event) :
  nothrow (K :: T') ->
  exists mid,
    scoped_block (K :: T') body log
      = Completed (log ++ Ctor 0 K :: mid ++ [Dtor 0 K]) /\
    count (acquire_at 0) mid = 0 /\ count (release_at 0) mid = 0.
Proof.
  intros Hok.
  exists (map ctor_event (positions_from 1 T') ++ map Msg body
            ++ map dtor_event (rev (positions_from 1 T'))).
  split; [|split].
  - rewrite scoped_block_nothrow by (assumption || discriminate).
    unfold positions. cbn [positions_from rev map app].
    rewrite map_app. cbn [map dtor_event h_index h_kind ctor_event].
    now rewrite <- !app_assoc.
  - rewrite !count_app, count_acquire_ctor, count_acquire_msg, count_acquire_dtor.
    rewrite positions_from_count_below by lia. reflexivity.
  - rewrite !count_app, count_release_ctor, count_release_msg, count_release_dtor.
    rewrite (filter_length_perm _
               (Permutation_sym (Permutation_rev (positions_from 1 T')))).
    rewrite positions_from_count_below by lia. reflexivity.
Qed.

Lemma first_declared_is_destroyed_last_witness :
  nothrow [Res1_RAII; Res2_RAII; Res3_RAII] /\
  exists mid,
    @scoped_block deque_front_to_back caught_by_caller [Res1_RAII; Res2_RAII; Res3_RAII] [] []
      = Completed ([] ++ Ctor 0 Res1_RAII :: mid ++ [Dtor 0 Res1_RAII]) /\
    count (release_at 0) mid = 0.
Proof.
  assert (H : nothrow [Res1_RAII; Res2_RAII; Res3_RAII]) by (repeat constructor).
  split; [exact H|].
  destruct (@first_declared_is_destroyed_last deque_front_to_back caught_by_caller
              Res1_RAII [Res2_RAII; Res3_RAII] [] [] H)
    as [mid [Hrun [_ Hr]]].
  exists mid. split; [exact Hrun | exact Hr].
Defined.

Lemma throwing_guard_split (T : list ScopedAcq) :
  Exists (fun K => ctor_throws K = true) T ->
  exists T1 K T2, T = T1 ++ K :: T2 /\ nothrow T1 /\ ctor_throws K = true.
Proof.
  intros Hex. destruct (first_throw T) as [Hok | H]; [|exact H].
  exfalso. apply Exists_exists in Hex. destruct Hex as [K [Hin HK]].
  unfold nothrow in Hok. rewrite Forall_forall in Hok.
  rewrite (Hok K Hin) in HK. discriminate HK.
Qed.

(** X8.  The empty list is rejected.  For a non-empty list whose guard
    constructors all complete, the scope completes and the body has run
    exactly once.  For a list with a guard constructor that throws, the
    scope ends with the exception, caught by a caller or in
    [std::terminate], and the body has not run at all. *)
Theorem body_runs_iff_constructed {impl : deque_dtor} {eh : caller}
    (T : list ScopedAcq) (body : list string) (log : list event) :
  (T = [] -> scoped_block T body log = Rejected incomplete_stk_builder) /\
  (T <> [] -> nothrow T ->
     exists tr,
       scoped_block T body log = Completed (log ++ tr) /\
       filter is_msg tr = map Msg body) /\
  (Exists (fun K => ctor_throws K = true) T ->
     exists tr,
       filter is_msg tr = [] /\
       scoped_block T body log =
       match on_throw with
       | handler_found => Propagated (log ++ tr)
       | terminate_unwound | terminate_not_unwound => Terminated (log ++ tr)
       end).
Proof.
  split; [|split].
  - intros ->. apply scoped_block_empty.
  - intros HT Hok. rewrite scoped_block_nothrow by assumption.
    eexists. split; [reflexivity|].
    rewrite !filter_app, filter_msg_body.
    rewrite !filter_msg_none by reflexivity. now rewrite app_nil_r.
  - intros Hex.
    destruct (throwing_guard_split Hex) as [T1 [K [T2 [-> [H1 HK]]]]].
    rewrite scoped_block_throw by assumption.
    destruct on_throw; eexists; (split; [|reflexivity]);
      rewrite filter_app; cbn [filter is_msg];
      now rewrite ?filter_msg_none by reflexivity.
Qed.

Lemma body_runs_iff_constructed_witness :
  (exists tr,
     @scoped_block deque_front_to_back caught_by_caller
       [Res1_RAII; Res2_RAII] ["inside the scope"%string] []
       = Completed ([] ++ tr) /\
     filter is_msg tr = [Msg "inside the scope"]) /\
  (exists tr,
     filter is_msg tr = [] /\
     @scoped_block deque_front_to_back uncaught_not_unwound
       [Res1_RAII; Failing_RAII] ["inside the scope"%string] []
       = Terminated ([] ++ tr)).
Proof.
  split.
  - apply (@body_runs_iff_constructed deque_front_to_back caught_by_caller
             [Res1_RAII; Res2_RAII] ["inside the scope"%string] []).
    + discriminate.
    + repeat constructor.
  - apply (@body_runs_iff_constructed deque_front_to_back uncaught_not_unwound
             [Res1_RAII; Failing_RAII] ["inside the scope"%string] []).
    apply Exists_cons_tl, Exists_cons_hd. reflexivity.
Defined.

Lemma positions_count_le (T : list ScopedAcq) (i : nat) :
  length (filter (fun h => i =? h_index h) (positions T)) <= 1.
Proof.
  destruct (Nat.lt_ge_cases i (length T)) as [H | H].
  - now rewrite positions_count_in.
  - rewrite positions_count_out by exact H. lia.
Qed.

(** X9.  In a scope that completes, and in a scope whose stack is unwound
    after a constructor threw, whatever the container's destruction order,
    an object is destroyed exactly when its constructor completed, and at
    most one object is ever made per index: nothing constructed outlives
    the scope and nothing is destroyed twice.  Where [std::terminate] is
    called without unwinding, nothing is destroyed. *)
Theorem constructed_iff_destroyed {impl : deque_dtor} {eh : caller}
    (T : list ScopedAcq) (body : list string) (log : list event) (i : nat) :
  match scoped_block T body log with
  | Completed log' | Propagated log' =>
      exists tr, log' = log ++ tr /\
        count (ctor_done_at i) tr = count (release_at i) tr /\
        count (release_at i) tr <= 1
  | Terminated log' =>
      exists tr, log' = log ++ tr /\
        count (ctor_done_at i) tr <= 1 /\
        match on_throw with
        | terminate_not_unwound => count (release_at i) tr = 0
        | handler_found | terminate_unwound =>
            count (ctor_done_at i) tr = count (release_at i) tr
        end
  | Rejected _ => T = []
  end.
Proof.
  destruct (first_throw T) as [Hok | [T1 [K [T2 [-> [H1 HK]]]]]].
  - destruct T as [|K T]; [reflexivity|].
    rewrite scoped_block_nothrow by (assumption || discriminate).
    eexists. split; [reflexivity|].
    destruct (scope_trace_counts (K :: T) body i) as [_ Hr]. rewrite Hr.
    split; [|apply positions_count_le].
    rewrite !count_app, count_ctor_done.
    rewrite (@count_none _ (ctor_done_at i) Msg body (fun _ => eq_refl)).
    rewrite (@count_none _ (ctor_done_at i) dtor_event _ (fun _ => eq_refl)).
    lia.
  - rewrite scoped_block_throw by assumption.
    assert (Hu : count (ctor_done_at i)
                   (map ctor_event (positions T1)
                      ++ CtorThrow (length T1) K
                      :: map dtor_event (destroy_order (rev (positions T1))))
                 = length (filter (fun h => i =? h_index h) (positions T1))).
    { rewrite count_app, count_ctor_done, count_cons. cbn [ctor_done_at].
      rewrite (@count_none _ (ctor_done_at i) dtor_event _ (fun _ => eq_refl)).
      lia. }
    destruct (throw_trace_counts T1 K i) as [_ Hr].
    pose proof (positions_count_le T1 i) as Hle.
    destruct on_throw eqn:Eh.
    + eexists. split; [reflexivity|]. rewrite Hu, Hr. split; [reflexivity | exact Hle].
    + eexists. split; [reflexivity|]. rewrite Hu, Hr. split; [exact Hle | reflexivity].
    + eexists. split; [reflexivity|]. split.
      * rewrite count_app, count_ctor_done, count_cons. cbn [ctor_done_at count filter length].
        lia.
      * apply (throw_trace_counts_not_unwound T1 K i).
Qed.

(** * The message queue *)

Lemma string_app_assoc (a b c : string) :
  ((a ++ b) ++ c = a ++ (b ++ c))%string.
Proof.
  induction a as [|ch a IH]; simpl; [reflexivity|]. now rewrite IH.
Qed.

Lemma string_app_nil_r (a : string) : (a ++ "" = a)%string.
Proof.
  induction a as [|ch a IH]; simpl; [reflexivity|]. now rewrite IH.
Qed.

Lemma get_messages_loop_spec (Q : msg_queue) (oss delim : string) :
  get_messages_loop Q oss delim = ((oss ++ join Q delim)%string, []).
Proof.
  revert oss delim. induction Q as [|m Q IH]; intros oss delim; simpl.
  - now rewrite string_app_nil_r.
  - rewrite IH. now rewrite !string_app_assoc.
Qed.

Lemma join_delim (Q : msg_queue) (delim : string) :
  Q <> [] -> join Q delim = (delim ++ join Q "")%string.
Proof.
  destruct Q as [|m Q]; [congruence|]. reflexivity.
Qed.

Lemma join_app (Q1 Q2 : msg_queue) (delim : string) :
  Q1 <> [] -> join (Q1 ++ Q2) delim = (join Q1 delim ++ join Q2 " | ")%string.
Proof.
  revert delim. induction Q1 as [|m Q1 IH]; intros delim Hne; [congruence|].
  destruct Q1 as [|m' Q1].
  - simpl. now rewrite !string_app_assoc.
  - change (join ((m :: m' :: Q1) ++ Q2) delim)
      with (delim ++ m ++ join ((m' :: Q1) ++ Q2) " | ")%string.
    rewrite IH by discriminate.
    change (join (m :: m' :: Q1) delim)
      with (delim ++ m ++ join (m' :: Q1) " | ")%string.
    now rewrite !string_app_assoc.
Qed.

(** X10.  [get_messages] returns the queued messages in the order they
    were pushed, separated by [" | "] with no separator before the first
    or after the last, and leaves the queue empty, so that a call right
    after it returns the empty string. *)
Theorem get_messages_drains_queue (Q : msg_queue) :
  RAII_checker_get_messages Q = (join Q "", []) /\
  RAII_checker_get_messages (snd (RAII_checker_get_messages Q)) = (""%string, []).
Proof.
  unfold RAII_checker_get_messages. rewrite get_messages_loop_spec.
  split; reflexivity.
Qed.

(** X11.  Reading a queue that holds the messages of [Q1] followed by the
    messages of [Q2], both non-empty, gives what reading [Q1] gives, then
    the separator, then what reading [Q2] gives; in particular a message
    pushed on a non-empty queue appears last, after one separator. *)
Theorem get_messages_concat (Q1 Q2 : msg_queue) (str : string) :
  Q1 <> [] -> Q2 <> [] ->
  fst (RAII_checker_get_messages (Q1 ++ Q2))
    = (fst (RAII_checker_get_messages Q1) ++ " | "
         ++ fst (RAII_checker_get_messages Q2))%string /\
  fst (RAII_checker_get_messages (push_message Q1 str))
    = (fst (RAII_checker_get_messages Q1) ++ " | " ++ str)%string.
Proof.
  intros H1 H2. unfold RAII_checker_get_messages, push_message.
  rewrite !get_messages_loop_spec. cbn [fst append].
  rewrite !join_app by exact H1. split.
  - now rewrite (join_delim " | " H2).
  - simpl. now rewrite string_app_nil_r.
Qed.

Lemma get_messages_concat_witness :
  ["Res1_RAII ctor"%string] <> [] /\ ["inside the scope"%string] <> [] /\
  fst (RAII_checker_get_messages
         (["Res1_RAII ctor"%string] ++ ["inside the scope"%string]))
    = "Res1_RAII ctor | inside the scope"%string /\
  fst (RAII_checker_get_messages
         (push_message ["Res1_RAII ctor"%string] "Res1_RAII dtor"))
    = "Res1_RAII ctor | Res1_RAII dtor"%string.
Proof.
  assert (H1 : ["Res1_RAII ctor"%string] <> []) by discriminate.
  assert (H2 : ["inside the scope"%string] <> []) by discriminate.
  split; [exact H1|]. split; [exact H2|].
  exact (@get_messages_concat _ _ "Res1_RAII dtor" H1 H2).
Defined.

Lemma log_msg_ctors (hs : list handle) :
  flat_map log_msg (map ctor_event hs) = map ctor_msg (map h_kind hs).
Proof.
  induction hs as [|h hs IH]; simpl; [reflexivity|]. now rewrite IH.
Qed.

Lemma log_msg_dtors (hs : list handle) :
  flat_map log_msg (map dtor_event hs) = map dtor_msg (map h_kind hs).
Proof.
  induction hs as [|h hs IH]; simpl; [reflexivity|]. now rewrite IH.
Qed.

Lemma log_msg_body (body : list string) :
  flat_map log_msg (map Msg body) = body.
Proof.
  induction body as [|m body IH]; simpl; [reflexivity|]. now rewrite IH.
Qed.

(** X12.  The unit test for any number of logging guards: started on an
    empty queue, a scope over a non-empty list of guards whose
    constructors complete leaves the constructor messages in declared
    order, then the messages of the body, then the destructor messages in
    reverse declared order, and [get_messages] returns them joined by the
    separator and empties the queue. *)
Theorem scope_messages {impl : deque_dtor} {eh : caller} (T : list ScopedAcq)
    (body : list string) :
  T <> [] -> nothrow T ->
  exists log,
    scoped_block T body [] = Completed log /\
    flat_map log_msg log = map ctor_msg T ++ body ++ map dtor_msg (rev T) /\
    RAII_checker_get_messages (flat_map log_msg log)
      = (join (map ctor_msg T ++ body ++ map dtor_msg (rev T)) "", []) /\
    get_messages log = fst (RAII_checker_get_messages (flat_map log_msg log)).
Proof.
  intros HT Hok. eexists. split; [now apply scoped_block_nothrow|].
  assert (Hq : flat_map log_msg
                 ([] ++ map ctor_event (positions T) ++ map Msg body
                     ++ map dtor_event (rev (positions T)))
               = map ctor_msg T ++ body ++ map dtor_msg (rev T)).
  { cbn [app]. rewrite !flat_map_app, log_msg_ctors, log_msg_body, log_msg_dtors.
    unfold positions. now rewrite map_rev, positions_from_kinds. }
  split; [exact Hq|]. unfold get_messages, RAII_checker_get_messages.
  rewrite Hq, get_messages_loop_spec. split; reflexivity.
Qed.

Lemma scope_messages_witness :
  [Res1_RAII; Res2_RAII; Res3_RAII] <> [] /\
  nothrow [Res1_RAII; Res2_RAII; Res3_RAII] /\
  exists log,
    @scoped_block deque_front_to_back caught_by_caller [Res1_RAII; Res2_RAII; Res3_RAII]
      ["inside the scope"%string] [] = Completed log /\
    RAII_checker_get_messages (flat_map log_msg log)
      = (misc_scoped_acq_result, []).
Proof.
  assert (H1 : [Res1_RAII; Res2_RAII; Res3_RAII] <> []) by discriminate.
  assert (H2 : nothrow [Res1_RAII; Res2_RAII; Res3_RAII])
    by (repeat constructor).
  split; [exact H1|]. split; [exact H2|].
  destruct (@scope_messages deque_front_to_back caught_by_caller _ ["inside the scope"%string] H1 H2)
    as [log [Hrun [_ [Hget _]]]].
  exists log. split; [exact Hrun | exact Hget].
Defined.
